(** * The MSM GEM shrinker (drivers/gpu/drm/msm/msm_gem_shrinker.c)

    A shallow embedding of the memory-pressure callbacks of the MSM DRM
    driver: the recursive trylock guard, the [count_objects] and
    [scan_objects] shrinker callbacks, the vmap purge notifier, and the
    registration and cleanup of both.

    Unsigned C integers are natural numbers of type [N] with the wrap-around
    of their width written out.  The device state is threaded through a small
    state monad; the task that runs a callback ([current] in the kernel) is an
    explicit argument. *)

From Stdlib Require Import NArith ZArith List Bool Lia.
Import ListNotations.

Local Open Scope N_scope.

(** ** Machine integers *)

Definition BITS_PER_LONG : N := 64.

(** [unsigned long] arithmetic wraps modulo [2^BITS_PER_LONG]. *)
Definition ulong (n : N) : N := n mod 2 ^ BITS_PER_LONG.

(** [unsigned] (unsigned int) arithmetic wraps modulo [2^32]. *)
Definition uint (n : N) : N := n mod 2 ^ 32.

(** [#define SHRINK_STOP (~0UL)] of the shrinker interface. *)
Definition SHRINK_STOP : N := 2 ^ BITS_PER_LONG - 1.

(** [#define NOTIFY_DONE 0x0000] of the notifier interface. *)
Definition NOTIFY_DONE : Z := 0%Z.

(** [#define ENOMEM 12]. *)
Definition ENOMEM : Z := 12%Z.

(** ** Tracked objects *)

(** Modelled from the spec: the discard advice of an object is three-valued
    (willing-to-discard, keep, do-not-need); the field [madv] of
    [struct msm_gem_object] is declared in msm_gem.h, which is not part of
    the sources at hand. *)
Inductive madv_t : Type :=
  | MADV_WILLING_TO_DISCARD
  | MADV_KEEP
  | MADV_DO_NOT_NEED.

Definition madv_eqb (a b : madv_t) : bool :=
  match a, b with
  | MADV_WILLING_TO_DISCARD, MADV_WILLING_TO_DISCARD => true
  | MADV_KEEP, MADV_KEEP => true
  | MADV_DO_NOT_NEED, MADV_DO_NOT_NEED => true
  | _, _ => false
  end.

(** [struct drm_gem_object]: only the byte size is read by the shrinker. *)
Record drm_gem_object : Type := { size : N }.

(** Modelled from the spec: a tracked object carries its size, a discard
    advice, a reference/pin count (nonzero means in active use), whether it
    has backing storage (is resident), and whether a virtual mapping is
    present.  [struct msm_gem_object] is declared in msm_gem.h, which is
    missing here. *)
Record msm_gem_object : Type := {
  base : drm_gem_object;
  madv : madv_t;
  refcount : N;
  resident : bool;
  vaddr : bool
}.

(** The lock subclass handed to the object primitives. *)
Inductive msm_gem_lock : Type :=
  | OBJ_LOCK_NORMAL
  | OBJ_LOCK_SHRINKER.

(** Modelled from the spec: an object is eligible for storage purge only if
    its discard advice is willing-to-discard, its reference count is 0 and it
    currently has backing storage.  [is_purgeable] is an inline function of
    msm_gem.h, which is missing here. *)
Definition is_purgeable (msm_obj : msm_gem_object) : bool :=
  madv_eqb (madv msm_obj) MADV_WILLING_TO_DISCARD
  && (refcount msm_obj =? 0)
  && resident msm_obj.

(** Modelled from the spec: an object is eligible for mapping unmap only if
    it has a present virtual mapping and its reference count is 0.
    [is_vunmapable] is an inline function of msm_gem.h, which is missing
    here. *)
Definition is_vunmapable (msm_obj : msm_gem_object) : bool :=
  vaddr msm_obj && (refcount msm_obj =? 0).

(** Modelled from the spec: the purge primitive releases the backing storage
    of the object and marks it non-resident.  [msm_gem_purge] is defined in
    msm_gem.c, which is missing here. *)
Definition msm_gem_purge (msm_obj : msm_gem_object) (subclass : msm_gem_lock)
  : msm_gem_object :=
  {| base := base msm_obj;
     madv := madv msm_obj;
     refcount := refcount msm_obj;
     resident := false;
     vaddr := vaddr msm_obj |}.

(** Modelled from the spec: the unmap primitive revokes the virtual mapping,
    the object remains resident in backing storage.  [msm_gem_vunmap] is
    defined in msm_gem.c, which is missing here. *)
Definition msm_gem_vunmap (msm_obj : msm_gem_object) (subclass : msm_gem_lock)
  : msm_gem_object :=
  {| base := base msm_obj;
     madv := madv msm_obj;
     refcount := refcount msm_obj;
     resident := resident msm_obj;
     vaddr := false |}.

(** ** The global lock *)

(** An execution context (a task); [current] is passed around as [cur]. *)
Definition ctx : Type := nat.

(** Modelled from the spec: the lock is free, held by the caller, or held by
    another context; it is an owner field.  [struct mutex] belongs to the
    kernel's locking headers, which are missing here. *)
Record mutex : Type := { owner : option ctx }.

Inductive mutex_trylock_recursive_enum : Type :=
  | MUTEX_TRYLOCK_FAILED
  | MUTEX_TRYLOCK_SUCCESS
  | MUTEX_TRYLOCK_RECURSIVE.

(** Modelled from the spec: a free lock is acquired exclusively; a lock the
    calling context already holds is reported as recursive and not acquired a
    second time; a lock held by a different context fails at once.
    [mutex_trylock_recursive] belongs to linux/mutex.h, which is missing
    here. *)
Definition mutex_trylock_recursive (cur : ctx) (lock : mutex)
  : mutex_trylock_recursive_enum * mutex :=
  match owner lock with
  | None => (MUTEX_TRYLOCK_SUCCESS, {| owner := Some cur |})
  | Some t =>
      if Nat.eqb t cur then (MUTEX_TRYLOCK_RECURSIVE, lock)
      else (MUTEX_TRYLOCK_FAILED, lock)
  end.

(** Modelled from the spec: release makes the lock free again. *)
Definition mutex_unlock_mutex (lock : mutex) : mutex := {| owner := None |}.

(** ** Device state *)

(** What the driver hands to collaborators outside this file: the two
    tracepoints, and the calls into the shrinker and notifier cores. *)
Inductive event : Type :=
  | trace_msm_gem_purge (bytes : N)
  | trace_msm_gem_purge_vmaps (unmapped : N)
  | ev_shrinker_register
  | ev_register_vmap_purge_notifier
  | ev_unregister_vmap_purge_notifier
  | ev_shrinker_free
  | ev_WARN.

(** Which callbacks a [struct shrinker] has been given. *)
Inductive callback : Type :=
  | cb_msm_gem_shrinker_count
  | cb_msm_gem_shrinker_scan
  | cb_msm_gem_shrinker_vmap.

(** [struct shrinker]: the two callbacks, and whether [private_data] points
    to the driver's private data. *)
Record shrinker_t : Type := {
  count_objects : option callback;
  scan_objects : option callback;
  private_data : bool
}.

(** [struct drm_device] together with its [struct msm_drm_private]. *)
Record drm_device : Type := {
  struct_mutex : mutex;
  inactive_list : list msm_gem_object;
  shrinker : option shrinker_t;
  vmap_notifier : option callback;
  vmap_notifier_registered : bool;
  events : list event
}.

Definition set_struct_mutex (m : mutex) (dev : drm_device) : drm_device :=
  {| struct_mutex := m;
     inactive_list := inactive_list dev;
     shrinker := shrinker dev;
     vmap_notifier := vmap_notifier dev;
     vmap_notifier_registered := vmap_notifier_registered dev;
     events := events dev |}.

Definition set_inactive_list (l : list msm_gem_object) (dev : drm_device)
  : drm_device :=
  {| struct_mutex := struct_mutex dev;
     inactive_list := l;
     shrinker := shrinker dev;
     vmap_notifier := vmap_notifier dev;
     vmap_notifier_registered := vmap_notifier_registered dev;
     events := events dev |}.

Definition set_shrinker (s : option shrinker_t) (dev : drm_device)
  : drm_device :=
  {| struct_mutex := struct_mutex dev;
     inactive_list := inactive_list dev;
     shrinker := s;
     vmap_notifier := vmap_notifier dev;
     vmap_notifier_registered := vmap_notifier_registered dev;
     events := events dev |}.

Definition set_vmap_notifier (c : option callback) (r : bool)
  (dev : drm_device) : drm_device :=
  {| struct_mutex := struct_mutex dev;
     inactive_list := inactive_list dev;
     shrinker := shrinker dev;
     vmap_notifier := c;
     vmap_notifier_registered := r;
     events := events dev |}.

Definition add_event (e : event) (dev : drm_device) : drm_device :=
  {| struct_mutex := struct_mutex dev;
     inactive_list := inactive_list dev;
     shrinker := shrinker dev;
     vmap_notifier := vmap_notifier dev;
     vmap_notifier_registered := vmap_notifier_registered dev;
     events := events dev ++ [e] |}.

(** ** A state monad over the device *)

Definition M (A : Type) : Type := drm_device -> A * drm_device.

Definition ret {A : Type} (a : A) : M A := fun dev => (a, dev).

Definition bind {A B : Type} (c : M A) (k : A -> M B) : M B :=
  fun dev => let (a, dev') := c dev in k a dev'.

Declare Scope shrinker_scope.
Delimit Scope shrinker_scope with shr.

Notation "x <- c ;; k" := (bind c (fun x => k))
  (at level 61, c at next level, right associativity) : shrinker_scope.
Notation "c ;; k" := (bind c (fun _ => k))
  (at level 61, right associativity) : shrinker_scope.

Local Open Scope shrinker_scope.

Definition get {A : Type} (f : drm_device -> A) : M A :=
  fun dev => (f dev, dev).

Definition modify (f : drm_device -> drm_device) : M unit :=
  fun dev => (tt, f dev).

Definition when (b : bool) (c : M unit) : M unit :=
  if b then c else ret tt.

(** [mutex_unlock(&dev->struct_mutex)]. *)
Definition mutex_unlock : M unit :=
  modify (fun dev => set_struct_mutex (mutex_unlock_mutex (struct_mutex dev)) dev).

(** ** msm_gem_shrinker_lock *)

(** The out-parameter [*unlock] is [Some b] when the function wrote [b] to it
    and [None] when it left it unwritten. *)
Definition msm_gem_shrinker_lock (cur : ctx) : M (bool * option bool) :=
  fun dev =>
    let (r, m) := mutex_trylock_recursive cur (struct_mutex dev) in
    let dev' := set_struct_mutex m dev in
    match r with
    | MUTEX_TRYLOCK_FAILED => ((false, None), dev')
    | MUTEX_TRYLOCK_SUCCESS => ((true, Some true), dev')
    | MUTEX_TRYLOCK_RECURSIVE => ((true, Some false), dev')
    end.

(** [if (unlock) mutex_unlock(&dev->struct_mutex);] for the written flag. *)
Definition unlock_if (unlock : option bool) : M unit :=
  match unlock with
  | Some true => mutex_unlock
  | _ => ret tt
  end.

Notation "' pat <- c ;; k" :=
  (bind c (fun x => match x with pat => k end))
  (at level 61, pat pattern, c at next level, right associativity)
  : shrinker_scope.

(** [struct shrink_control]: only the budget is read. *)
Record shrink_control : Type := { nr_to_scan : N }.

(** The result of one walk over the inactive list: the list as the walk
    leaves it, the accumulator of the loop, and the number of entries whose
    loop body was entered (a ghost counter, the work done by the walk). *)
Record walk (A : Type) : Type := {
  objs : list msm_gem_object;
  acc : A;
  visited : nat
}.
Arguments objs {A} _.
Arguments acc {A} _.
Arguments visited {A} _.

Definition walk_cons {A : Type} (o : msm_gem_object) (w : walk A) : walk A :=
  {| objs := o :: objs w; acc := acc w; visited := S (visited w) |}.

Section Shrinker.

(** The page shift of the target; the macro belongs to the architecture
    headers, so it is a parameter of the development. *)
Variable PAGE_SHIFT : N.

(** [msm_obj->base.size >> PAGE_SHIFT]. *)
Definition obj_pages (msm_obj : msm_gem_object) : N :=
  N.shiftr (size (base msm_obj)) PAGE_SHIFT.

(** *** msm_gem_shrinker_count *)

(** The [list_for_each_entry] loop of [msm_gem_shrinker_count]. *)
Fixpoint count_loop (l : list msm_gem_object) (count : N) : N :=
  match l with
  | [] => count
  | msm_obj :: tl =>
      if is_purgeable msm_obj
      then count_loop tl (ulong (count + obj_pages msm_obj))
      else count_loop tl count
  end.

Definition msm_gem_shrinker_count (cur : ctx) (sc : shrink_control) : M N :=
  '(locked, unlock) <- msm_gem_shrinker_lock cur ;;
  if negb locked then ret 0
  else
    l <- get inactive_list ;;
    let count := count_loop l 0 in
    unlock_if unlock ;;
    ret count.

(** *** msm_gem_shrinker_scan *)

(** The [list_for_each_entry] loop of [msm_gem_shrinker_scan]; at the
    [break] the rest of the list is returned as it is. *)
Fixpoint scan_loop (nr : N) (l : list msm_gem_object) (freed : N) : walk N :=
  match l with
  | [] => {| objs := []; acc := freed; visited := 0 |}
  | msm_obj :: tl =>
      if nr <=? freed
      then {| objs := l; acc := freed; visited := 0 |}
      else if is_purgeable msm_obj
      then walk_cons (msm_gem_purge msm_obj OBJ_LOCK_SHRINKER)
             (scan_loop nr tl (ulong (freed + obj_pages msm_obj)))
      else walk_cons msm_obj (scan_loop nr tl freed)
  end.

Definition msm_gem_shrinker_scan (cur : ctx) (sc : shrink_control) : M N :=
  '(locked, unlock) <- msm_gem_shrinker_lock cur ;;
  if negb locked then ret SHRINK_STOP
  else
    l <- get inactive_list ;;
    let w := scan_loop (nr_to_scan sc) l 0 in
    modify (set_inactive_list (objs w)) ;;
    unlock_if unlock ;;
    when (0 <? acc w)
      (modify (add_event
         (trace_msm_gem_purge (ulong (N.shiftl (acc w) PAGE_SHIFT))))) ;;
    ret (acc w).

End Shrinker.

(** *** msm_gem_shrinker_vmap *)

(** The [list_for_each_entry] loop of [msm_gem_shrinker_vmap]; [unmapped] is
    an [unsigned]. *)
Fixpoint vmap_loop (l : list msm_gem_object) (unmapped : N) : walk N :=
  match l with
  | [] => {| objs := []; acc := unmapped; visited := 0 |}
  | msm_obj :: tl =>
      if is_vunmapable msm_obj
      then
        let unmapped' := uint (unmapped + 1) in
        if 15 <=? unmapped'
        then {| objs := msm_gem_vunmap msm_obj OBJ_LOCK_SHRINKER :: tl;
                acc := unmapped';
                visited := 1 |}
        else walk_cons (msm_gem_vunmap msm_obj OBJ_LOCK_SHRINKER)
               (vmap_loop tl unmapped')
      else walk_cons msm_obj (vmap_loop tl unmapped)
  end.

(** [ptr] is the value of the [unsigned long] the notifier points to; the
    result pairs the return code with the value stored there on return. *)
Definition msm_gem_shrinker_vmap (cur : ctx) (ptr : N) : M (Z * N) :=
  '(locked, unlock) <- msm_gem_shrinker_lock cur ;;
  if negb locked then ret (NOTIFY_DONE, ptr)
  else
    l <- get inactive_list ;;
    let w := vmap_loop l 0 in
    modify (set_inactive_list (objs w)) ;;
    unlock_if unlock ;;
    let ptr' := ulong (ptr + acc w) in
    when (0 <? acc w)
      (modify (add_event (trace_msm_gem_purge_vmaps (acc w)))) ;;
    ret (NOTIFY_DONE, ptr').

(** ** Registration and cleanup *)

(** [#define ENOENT 2]. *)
Definition ENOENT : Z := 2%Z.

(** Modelled from the spec: registering the unmap-pass notifier succeeds;
    [register_vmap_purge_notifier] belongs to the vmalloc core, which is
    missing here. *)
Definition register_vmap_purge_notifier : M Z :=
  fun dev =>
    (0%Z,
     add_event ev_register_vmap_purge_notifier
       (set_vmap_notifier (vmap_notifier dev) true dev)).

(** Modelled from the spec: unregistering a registered notifier succeeds;
    unregistering something never registered is a teardown inconsistency and
    is reported by a nonzero code.  [unregister_vmap_purge_notifier] belongs
    to the vmalloc core, which is missing here. *)
Definition unregister_vmap_purge_notifier : M Z :=
  fun dev =>
    let dev' :=
      add_event ev_unregister_vmap_purge_notifier
        (set_vmap_notifier (vmap_notifier dev) false dev) in
    if vmap_notifier_registered dev then (0%Z, dev')
    else ((- ENOENT)%Z, dev').

(** [WARN_ON(cond)]: a warning event when the condition is nonzero. *)
Definition WARN_ON (cond : Z) : M unit :=
  when (negb (Z.eqb cond 0)) (modify (add_event ev_WARN)).

(** [alloc] is what [shrinker_alloc(0, "drm-msm_gem")] returned: a fresh
    [struct shrinker], or [None] for a null pointer. *)
Definition msm_gem_shrinker_init (alloc : option shrinker_t) : M Z :=
  modify (set_shrinker alloc) ;;
  s <- get shrinker ;;
  match s with
  | None => ret (- ENOMEM)%Z
  | Some _ =>
      modify (set_shrinker
                (Some {| count_objects := Some cb_msm_gem_shrinker_count;
                         scan_objects := Some cb_msm_gem_shrinker_scan;
                         private_data := true |})) ;;
      modify (add_event ev_shrinker_register) ;;
      modify (fun dev =>
                set_vmap_notifier (Some cb_msm_gem_shrinker_vmap)
                  (vmap_notifier_registered dev) dev) ;;
      r <- register_vmap_purge_notifier ;;
      WARN_ON r ;;
      ret 0%Z
  end.

(** [shrinker_free] leaves [priv->shrinker] as it is (a stale pointer). *)
Definition msm_gem_shrinker_cleanup : M unit :=
  s <- get shrinker ;;
  match s with
  | Some _ =>
      r <- unregister_vmap_purge_notifier ;;
      WARN_ON r ;;
      modify (add_event ev_shrinker_free)
  | None => ret tt
  end.

(** ** Vocabulary of the specification *)

(** The lock guard grants access to [cur] in state [dev]. *)
Definition granted (cur : ctx) (dev : drm_device) : Prop :=
  fst (fst (msm_gem_shrinker_lock cur dev)) = true.

(** The lock is held by a context other than [cur]. *)
Definition held_elsewhere (cur : ctx) (dev : drm_device) : Prop :=
  exists t, owner (struct_mutex dev) = Some t /\ t <> cur.

(** The total of the sizes, in whole pages, of the purgeable objects of a
    list, as a number without wrap-around. *)
Definition sum_purgeable_pages (PAGE_SHIFT : N) (l : list msm_gem_object)
  : N :=
  fold_right N.add 0 (map (obj_pages PAGE_SHIFT) (filter is_purgeable l)).

(** How many objects of a list can be unmapped. *)
Fixpoint count_vunmapable (l : list msm_gem_object) : N :=
  match l with
  | [] => 0
  | o :: tl => (if is_vunmapable o then 1 else 0) + count_vunmapable tl
  end.

(** A resident, unreferenced, discardable object of [units] pages. *)
Definition purgeable_obj (PAGE_SHIFT units : N) : msm_gem_object :=
  {| base := {| size := N.shiftl units PAGE_SHIFT |};
     madv := MADV_WILLING_TO_DISCARD;
     refcount := 0;
     resident := true;
     vaddr := false |}.

(** A device whose lock is free and whose inactive list is [l]. *)
Definition idle_device (l : list msm_gem_object) : drm_device :=
  {| struct_mutex := {| owner := None |};
     inactive_list := l;
     shrinker := None;
     vmap_notifier := None;
     vmap_notifier_registered := false;
     events := [] |}.

(** An object in active use that keeps its pages: not purgeable, not
    unmappable. *)
Definition busy_obj : msm_gem_object :=
  {| base := {| size := 4096 |};
     madv := MADV_KEEP;
     refcount := 1;
     resident := true;
     vaddr := true |}.

(** An idle object with a virtual mapping: unmappable. *)
Definition mapped_obj : msm_gem_object :=
  {| base := {| size := 4096 |};
     madv := MADV_KEEP;
     refcount := 0;
     resident := true;
     vaddr := true |}.

(** The device after an entry point, with a tracepoint hit or not. *)
Definition trace_if (b : bool) (e : event) (dev : drm_device) : drm_device :=
  if b then add_event e dev else dev.

(** The objects of a list that add nothing to the total of a scan: those
    that are not purgeable and those of less than a page. *)
Definition scan_dead (PAGE_SHIFT : N) (l : list msm_gem_object)
  : list msm_gem_object :=
  filter (fun o => negb (is_purgeable o) || (obj_pages PAGE_SHIFT o =? 0)) l.

(** The objects of a list that the unmap pass walks over without unmapping
    them. *)
Definition vmap_dead (l : list msm_gem_object) : list msm_gem_object :=
  filter (fun o => negb (is_vunmapable o)) l.

(** The work of a scan, counted in objects visited, is at most [c] times the
    budget (plus [c]), whatever the inactive list is. *)
Definition scan_work_bounded_by_budget (c : nat) : Prop :=
  forall (PAGE_SHIFT nr : N) (l : list msm_gem_object),
  (visited (scan_loop PAGE_SHIFT nr l 0) <= c * (N.to_nat nr + 1))%nat.

(** The work of an unmap pass, counted in objects visited, is at most [c]
    times the cap of 15, whatever the inactive list is. *)
Definition vmap_work_bounded_by_cap (c : nat) : Prop :=
  forall l : list msm_gem_object,
  (visited (vmap_loop l 0) <= c * 15)%nat.

(** What the scan does to an object it visits. *)
Definition purge_if_purgeable (o : msm_gem_object) : msm_gem_object :=
  if is_purgeable o then msm_gem_purge o OBJ_LOCK_SHRINKER else o.

(** [k] deliveries of the vmap purge notification in a row, each handed the
    accumulator the one before left; the result is the accumulator and the
    device after the last. *)
Fixpoint vmap_passes (k : nat) (cur : ctx) (ptr : N) (dev : drm_device)
  : N * drm_device :=
  match k with
  | O => (ptr, dev)
  | S k' =>
      let r := msm_gem_shrinker_vmap cur ptr dev in
      vmap_passes k' cur (snd (fst r)) (snd r)
  end.

(** One turn of the body of the scan loop on the running total, the budget
    test aside: a purgeable object adds its pages. *)
Definition scan_step (PAGE_SHIFT : N) (freed : N) (o : msm_gem_object) : N :=
  if is_purgeable o then ulong (freed + obj_pages PAGE_SHIFT o) else freed.

(** The running total of a scan, started at 0, once it has visited the
    objects of [pre]. *)
Definition freed_after (PAGE_SHIFT : N) (pre : list msm_gem_object) : N :=
  fold_left (scan_step PAGE_SHIFT) pre 0.

(** What the unmap pass does to an object it visits. *)
Definition vunmap_if_vunmapable (o : msm_gem_object) : msm_gem_object :=
  if is_vunmapable o then msm_gem_vunmap o OBJ_LOCK_SHRINKER else o.

(** ** The lock guard *)

Lemma set_struct_mutex_same (dev : drm_device) :
  set_struct_mutex (struct_mutex dev) dev = dev.
Proof. destruct dev; reflexivity. Qed.

Lemma lock_free (cur : ctx) (dev : drm_device) :
  owner (struct_mutex dev) = None ->
  msm_gem_shrinker_lock cur dev
  = ((true, Some true), set_struct_mutex {| owner := Some cur |} dev).
Proof.
  intros Hfree. unfold msm_gem_shrinker_lock, mutex_trylock_recursive.
  rewrite Hfree. reflexivity.
Qed.

Lemma lock_recursive (cur : ctx) (dev : drm_device) :
  owner (struct_mutex dev) = Some cur ->
  msm_gem_shrinker_lock cur dev = ((true, Some false), dev).
Proof.
  intros Hmine. unfold msm_gem_shrinker_lock, mutex_trylock_recursive.
  rewrite Hmine, Nat.eqb_refl. now rewrite set_struct_mutex_same.
Qed.

Lemma lock_contended (cur t : ctx) (dev : drm_device) :
  owner (struct_mutex dev) = Some t -> t <> cur ->
  msm_gem_shrinker_lock cur dev = ((false, None), dev).
Proof.
  intros Hother Hneq. unfold msm_gem_shrinker_lock, mutex_trylock_recursive.
  rewrite Hother. apply Nat.eqb_neq in Hneq. rewrite Hneq.
  now rewrite set_struct_mutex_same.
Qed.

(** The three states of the lock, as the guard tells them apart. *)
Lemma lock_cases (cur : ctx) (dev : drm_device) :
  owner (struct_mutex dev) = None
  \/ owner (struct_mutex dev) = Some cur
  \/ held_elsewhere cur dev.
Proof.
  destruct (owner (struct_mutex dev)) as [t|] eqn:E; [|now left].
  right. destruct (Nat.eq_dec t cur) as [->|Hneq]; [now left|].
  right. exists t. auto.
Qed.

Lemma granted_iff (cur : ctx) (dev : drm_device) :
  granted cur dev <->
  owner (struct_mutex dev) = None \/ owner (struct_mutex dev) = Some cur.
Proof.
  unfold granted. split.
  - intros Hg. destruct (lock_cases cur dev) as [H|[H|(t & H & Hneq)]]; auto.
    rewrite (lock_contended cur t dev H Hneq) in Hg. discriminate.
  - intros [H|H].
    + now rewrite (lock_free cur dev H).
    + now rewrite (lock_recursive cur dev H).
Qed.

(** C2: the lock guard tells three lock states apart.  A free lock is
    acquired for the caller and reported as (granted, caller must release);
    a lock the caller already holds is left as it is and reported as
    (granted, caller must not release); a lock another context holds is left
    as it is and refused, the release flag unwritten.  Conversely each of the
    three answers occurs in exactly one of the three lock states. *)
Theorem msm_gem_shrinker_lock_three_way (cur : ctx) (dev : drm_device) :
  (owner (struct_mutex dev) = None ->
   msm_gem_shrinker_lock cur dev
   = ((true, Some true), set_struct_mutex {| owner := Some cur |} dev))
  /\ (owner (struct_mutex dev) = Some cur ->
      msm_gem_shrinker_lock cur dev = ((true, Some false), dev))
  /\ (held_elsewhere cur dev ->
      msm_gem_shrinker_lock cur dev = ((false, None), dev))
  /\ (fst (msm_gem_shrinker_lock cur dev) = (true, Some true)
      <-> owner (struct_mutex dev) = None)
  /\ (fst (msm_gem_shrinker_lock cur dev) = (true, Some false)
      <-> owner (struct_mutex dev) = Some cur)
  /\ (fst (msm_gem_shrinker_lock cur dev) = (false, None)
      <-> held_elsewhere cur dev).
Proof.
  split; [apply lock_free|].
  split; [apply lock_recursive|].
  split; [intros (t & H & Hneq); now apply lock_contended with t|].
  destruct (lock_cases cur dev) as [H|[H|Hel]].
  - rewrite (lock_free cur dev H). cbn.
    repeat split; try discriminate; try congruence.
    intros (t & Ht & _). congruence.
  - rewrite (lock_recursive cur dev H). cbn.
    repeat split; try discriminate; try congruence.
    intros (t & Ht & Hneq). congruence.
  - destruct Hel as (t & H & Hneq).
    rewrite (lock_contended cur t dev H Hneq). cbn.
    repeat split; try discriminate; try congruence.
    exists t. auto.
Qed.

(** ** What the entry points compute once the lock is settled *)

Lemma count_granted (PAGE_SHIFT : N) (cur : ctx) (sc : shrink_control)
  (dev : drm_device) :
  granted cur dev ->
  msm_gem_shrinker_count PAGE_SHIFT cur sc dev
  = (count_loop PAGE_SHIFT (inactive_list dev) 0, dev).
Proof.
  intros Hg. apply granted_iff in Hg. unfold msm_gem_shrinker_count, bind.
  destruct Hg as [H|H].
  - rewrite (lock_free cur dev H). cbn.
    unfold mutex_unlock, modify, get, ret; cbn.
    destruct dev as [[o] l s vn vr ev]; cbn in *; subst; reflexivity.
  - rewrite (lock_recursive cur dev H). reflexivity.
Qed.

Lemma count_contended (PAGE_SHIFT : N) (cur : ctx) (sc : shrink_control)
  (dev : drm_device) :
  held_elsewhere cur dev ->
  msm_gem_shrinker_count PAGE_SHIFT cur sc dev = (0, dev).
Proof.
  intros (t & H & Hneq). unfold msm_gem_shrinker_count, bind.
  rewrite (lock_contended cur t dev H Hneq). reflexivity.
Qed.

Lemma scan_granted (PAGE_SHIFT : N) (cur : ctx) (sc : shrink_control)
  (dev : drm_device) :
  granted cur dev ->
  let w := scan_loop PAGE_SHIFT (nr_to_scan sc) (inactive_list dev) 0 in
  msm_gem_shrinker_scan PAGE_SHIFT cur sc dev
  = (acc w,
     trace_if (0 <? acc w)
       (trace_msm_gem_purge (ulong (N.shiftl (acc w) PAGE_SHIFT)))
       (set_inactive_list (objs w) dev)).
Proof.
  intros Hg w. apply granted_iff in Hg. unfold msm_gem_shrinker_scan, bind.
  destruct Hg as [H|H].
  - rewrite (lock_free cur dev H). cbn.
    unfold mutex_unlock, modify, get, ret, when, trace_if; cbn.
    subst w. destruct dev as [[o] l s vn vr ev]; cbn in *; subst.
    destruct (0 <? _); reflexivity.
  - rewrite (lock_recursive cur dev H). cbn.
    unfold modify, get, ret, when, trace_if; cbn.
    subst w. destruct (0 <? _); reflexivity.
Qed.

Lemma scan_contended (PAGE_SHIFT : N) (cur : ctx) (sc : shrink_control)
  (dev : drm_device) :
  held_elsewhere cur dev ->
  msm_gem_shrinker_scan PAGE_SHIFT cur sc dev = (SHRINK_STOP, dev).
Proof.
  intros (t & H & Hneq). unfold msm_gem_shrinker_scan, bind.
  rewrite (lock_contended cur t dev H Hneq). reflexivity.
Qed.

Lemma vmap_granted (cur : ctx) (ptr : N) (dev : drm_device) :
  granted cur dev ->
  let w := vmap_loop (inactive_list dev) 0 in
  msm_gem_shrinker_vmap cur ptr dev
  = ((NOTIFY_DONE, ulong (ptr + acc w)),
     trace_if (0 <? acc w) (trace_msm_gem_purge_vmaps (acc w))
       (set_inactive_list (objs w) dev)).
Proof.
  intros Hg w. apply granted_iff in Hg. unfold msm_gem_shrinker_vmap, bind.
  destruct Hg as [H|H].
  - rewrite (lock_free cur dev H). cbn.
    unfold mutex_unlock, modify, get, ret, when, trace_if; cbn.
    subst w. destruct dev as [[o] l s vn vr ev]; cbn in *; subst.
    destruct (0 <? _); reflexivity.
  - rewrite (lock_recursive cur dev H). cbn.
    unfold modify, get, ret, when, trace_if; cbn.
    subst w. destruct (0 <? _); reflexivity.
Qed.

Lemma vmap_contended (cur : ctx) (ptr : N) (dev : drm_device) :
  held_elsewhere cur dev ->
  msm_gem_shrinker_vmap cur ptr dev = ((NOTIFY_DONE, ptr), dev).
Proof.
  intros (t & H & Hneq). unfold msm_gem_shrinker_vmap, bind.
  rewrite (lock_contended cur t dev H Hneq). reflexivity.
Qed.

(** The lock is in the same state after a pass as before it, so a pass that
    was granted access is granted access again. *)
Lemma granted_trace_if (cur : ctx) (b : bool) (e : event)
  (l : list msm_gem_object) (dev : drm_device) :
  granted cur dev -> granted cur (trace_if b e (set_inactive_list l dev)).
Proof.
  rewrite !granted_iff. destruct b; cbn; auto.
Qed.

(** C5: when another context holds the lock, each entry point returns its
    no-op result at once and leaves the whole device state as it was: the
    count is 0, the scan answers SHRINK_STOP, and the unmap pass answers
    NOTIFY_DONE with the accumulator untouched. *)
Theorem contended_entry_points_do_nothing (PAGE_SHIFT : N) (cur : ctx)
  (sc : shrink_control) (ptr : N) (dev : drm_device) :
  held_elsewhere cur dev ->
  msm_gem_shrinker_count PAGE_SHIFT cur sc dev = (0, dev)
  /\ msm_gem_shrinker_scan PAGE_SHIFT cur sc dev = (SHRINK_STOP, dev)
  /\ msm_gem_shrinker_vmap cur ptr dev = ((NOTIFY_DONE, ptr), dev).
Proof.
  intros H. split; [|split].
  - now apply count_contended.
  - now apply scan_contended.
  - now apply vmap_contended.
Qed.

(** C7: the count callback leaves the device exactly as it found it: every
    object and its attributes, the inactive list, and the lock, which is
    released again when the callback took it and left alone otherwise. *)
Theorem msm_gem_shrinker_count_pure (PAGE_SHIFT : N) (cur : ctx)
  (sc : shrink_control) (dev : drm_device) :
  snd (msm_gem_shrinker_count PAGE_SHIFT cur sc dev) = dev.
Proof.
  destruct (lock_cases cur dev) as [H|[H|H]].
  - rewrite count_granted; [reflexivity|apply granted_iff; auto].
  - rewrite count_granted; [reflexivity|apply granted_iff; auto].
  - now rewrite count_contended.
Qed.

(** ** Unsigned long arithmetic *)

Lemma two_pow_long_nonzero : 2 ^ BITS_PER_LONG <> 0.
Proof. discriminate. Qed.

Lemma ulong_le (n : N) : ulong n <= n.
Proof. unfold ulong. apply N.Div0.mod_le. Qed.

Lemma ulong_bound (n : N) : ulong n < 2 ^ BITS_PER_LONG.
Proof. unfold ulong. apply N.mod_upper_bound, two_pow_long_nonzero. Qed.

Lemma ulong_small (n : N) : n < 2 ^ BITS_PER_LONG -> ulong n = n.
Proof. unfold ulong. apply N.mod_small. Qed.

Lemma ulong_add_l (a b : N) : ulong (ulong a + b) = ulong (a + b).
Proof. unfold ulong. apply N.Div0.add_mod_idemp_l. Qed.

(** Shifting a page count up and down again gives the page count. *)
Lemma purgeable_obj_pages (PAGE_SHIFT units : N) :
  obj_pages PAGE_SHIFT (purgeable_obj PAGE_SHIFT units) = units.
Proof.
  unfold obj_pages, purgeable_obj; cbn.
  rewrite N.shiftr_shiftl_l by apply N.le_refl.
  now rewrite N.sub_diag, N.shiftl_0_r.
Qed.

(** ** The count callback *)

Lemma sum_purgeable_pages_cons (PAGE_SHIFT : N) (o : msm_gem_object)
  (l : list msm_gem_object) :
  sum_purgeable_pages PAGE_SHIFT (o :: l)
  = (if is_purgeable o then obj_pages PAGE_SHIFT o else 0)
    + sum_purgeable_pages PAGE_SHIFT l.
Proof.
  unfold sum_purgeable_pages; cbn. destruct (is_purgeable o); reflexivity.
Qed.

Lemma count_loop_sum (PAGE_SHIFT : N) (l : list msm_gem_object) :
  forall count, count < 2 ^ BITS_PER_LONG ->
  count_loop PAGE_SHIFT l count
  = ulong (count + sum_purgeable_pages PAGE_SHIFT l).
Proof.
  induction l as [|o tl IH]; intros count Hc.
  - cbn. now rewrite N.add_0_r, ulong_small.
  - rewrite sum_purgeable_pages_cons. cbn [count_loop].
    destruct (is_purgeable o).
    + rewrite IH by apply ulong_bound.
      now rewrite ulong_add_l, N.add_assoc.
    + now rewrite IH.
Qed.

Lemma not_granted_held_elsewhere (cur : ctx) (dev : drm_device) :
  ~ granted cur dev -> held_elsewhere cur dev.
Proof.
  intros Hn. destruct (lock_cases cur dev) as [H|[H|H]]; auto;
    exfalso; apply Hn, granted_iff; auto.
Qed.

(** C6: when the lock guard grants access the count callback returns the sum,
    over the purgeable objects of the inactive list, of their sizes in whole
    pages (size >> PAGE_SHIFT), computed in an unsigned long: it is that sum
    reduced modulo 2^64, hence the sum itself whenever the sum fits an
    unsigned long.  When access is not granted it returns 0. *)
Theorem msm_gem_shrinker_count_sum (PAGE_SHIFT : N) (cur : ctx)
  (sc : shrink_control) (dev : drm_device) :
  (granted cur dev ->
   fst (msm_gem_shrinker_count PAGE_SHIFT cur sc dev)
   = ulong (sum_purgeable_pages PAGE_SHIFT (inactive_list dev))
   /\ (sum_purgeable_pages PAGE_SHIFT (inactive_list dev) < 2 ^ BITS_PER_LONG ->
       fst (msm_gem_shrinker_count PAGE_SHIFT cur sc dev)
       = fold_right N.add 0
           (map (fun o => N.shiftr (size (base o)) PAGE_SHIFT)
              (filter is_purgeable (inactive_list dev)))))
  /\ (~ granted cur dev ->
      fst (msm_gem_shrinker_count PAGE_SHIFT cur sc dev) = 0).
Proof.
  split.
  - intros Hg. rewrite (count_granted PAGE_SHIFT cur sc dev Hg). cbn [fst].
    rewrite count_loop_sum by reflexivity. rewrite N.add_0_l.
    split; [reflexivity|]. intros Hfit. now rewrite ulong_small.
  - intros Hn. apply not_granted_held_elsewhere in Hn.
    now rewrite count_contended.
Qed.

(** ** The scan loop *)

Section ScanLoop.

Variable PAGE_SHIFT : N.
Variable nr : N.

Local Abbreviation scan := (scan_loop PAGE_SHIFT nr).

Lemma scan_loop_break (l : list msm_gem_object) (freed : N) :
  nr <= freed ->
  scan l freed = {| objs := l; acc := freed; visited := 0 |}.
Proof.
  intros Hge. destruct l as [|o tl]; [reflexivity|].
  cbn. apply N.leb_le in Hge. now rewrite Hge.
Qed.

(** Once the running total has reached the budget, whatever follows in the
    list is returned as it is. *)
Lemma scan_loop_app_stop (post : list msm_gem_object) :
  forall (pre : list msm_gem_object) (freed : N),
  nr <= acc (scan pre freed) ->
  scan (pre ++ post) freed
  = {| objs := objs (scan pre freed) ++ post;
       acc := acc (scan pre freed);
       visited := visited (scan pre freed) |}.
Proof.
  induction pre as [|o tl IH]; intros freed Hge.
  - cbn in Hge. cbn [app]. now rewrite (scan_loop_break post freed Hge).
  - cbn [app scan_loop] in *. destruct (nr <=? freed); [reflexivity|].
    destruct (is_purgeable o); cbn in Hge |- *; now rewrite IH.
Qed.

(** Without wrap-around the running total reaches the budget as soon as the
    purgeable pages seen so far do. *)
Lemma scan_loop_reaches :
  forall (l : list msm_gem_object) (freed : N),
  freed + sum_purgeable_pages PAGE_SHIFT l < 2 ^ BITS_PER_LONG ->
  nr <= freed + sum_purgeable_pages PAGE_SHIFT l ->
  nr <= acc (scan l freed).
Proof.
  induction l as [|o tl IH]; intros freed Hfit Hge.
  - cbn in *. lia.
  - rewrite sum_purgeable_pages_cons in *. cbn [scan_loop].
    destruct (nr <=? freed) eqn:Hb; [apply N.leb_le in Hb; exact Hb|].
    destruct (is_purgeable o); cbn [walk_cons acc].
    + assert (Hs : ulong (freed + obj_pages PAGE_SHIFT o)
                   = freed + obj_pages PAGE_SHIFT o)
        by (apply ulong_small; lia).
      apply IH; rewrite Hs; lia.
    + apply IH; lia.
Qed.

Lemma scan_loop_length :
  forall (l : list msm_gem_object) (freed : N),
  length (objs (scan l freed)) = length l.
Proof.
  induction l as [|o tl IH]; intros freed; [reflexivity|].
  cbn [scan_loop]. destruct (nr <=? freed); [reflexivity|].
  destruct (is_purgeable o); cbn; now rewrite IH.
Qed.

Lemma scan_loop_visited_le :
  forall (l : list msm_gem_object) (freed : N),
  (visited (scan l freed) <= length l)%nat.
Proof.
  induction l as [|o tl IH]; intros freed; [cbn; lia|].
  cbn [scan_loop]. destruct (nr <=? freed); [cbn; lia|].
  destruct (is_purgeable o); cbn; apply le_n_S, IH.
Qed.

(** The entries behind the visited ones are the entries of the input. *)
Lemma scan_loop_skipn :
  forall (l : list msm_gem_object) (freed : N),
  skipn (visited (scan l freed)) (objs (scan l freed))
  = skipn (visited (scan l freed)) l.
Proof.
  induction l as [|o tl IH]; intros freed; [reflexivity|].
  cbn [scan_loop]. destruct (nr <=? freed); [reflexivity|].
  destruct (is_purgeable o); cbn; apply IH.
Qed.

(** An object that is not purgeable stays as it is, wherever it sits. *)
Lemma scan_loop_keeps :
  forall (l : list msm_gem_object) (freed : N) (i : nat) (o : msm_gem_object),
  nth_error l i = Some o -> is_purgeable o = false ->
  nth_error (objs (scan l freed)) i = Some o.
Proof.
  induction l as [|x tl IH]; intros freed i o Hi Ho.
  - destruct i; discriminate.
  - cbn [scan_loop]. destruct (nr <=? freed); [exact Hi|].
    destruct i as [|i].
    + cbn in Hi. injection Hi as ->. rewrite Ho. reflexivity.
    + cbn in Hi. destruct (is_purgeable x); cbn; now apply IH.
Qed.

(** The total returned is the total on entry, or it exceeds the budget by
    less than the pages of one purgeable object of the list. *)
Lemma scan_loop_overshoot :
  forall (l : list msm_gem_object) (freed : N),
  acc (scan l freed) = freed
  \/ exists o, In o l /\ is_purgeable o = true
               /\ acc (scan l freed) < nr + obj_pages PAGE_SHIFT o.
Proof.
  induction l as [|x tl IH]; intros freed; [now left|].
  cbn [scan_loop]. destruct (nr <=? freed) eqn:Hb; [now left|].
  apply N.leb_gt in Hb.
  destruct (is_purgeable x) eqn:Hx; cbn [walk_cons acc].
  - right.
    destruct (IH (ulong (freed + obj_pages PAGE_SHIFT x))) as [->|(o & Hin & Ho & Hlt)].
    + exists x. split; [now left|]. split; [exact Hx|].
      pose proof (ulong_le (freed + obj_pages PAGE_SHIFT x)). lia.
    + exists o. split; [now right|]. auto.
  - destruct (IH freed) as [->|(o & Hin & Ho & Hlt)]; [now left|].
    right. exists o. split; [now right|]. auto.
Qed.

Lemma is_purgeable_purge (o : msm_gem_object) (subclass : msm_gem_lock) :
  is_purgeable (msm_gem_purge o subclass) = false.
Proof. unfold is_purgeable, msm_gem_purge; cbn. apply andb_false_r. Qed.

(** A total below the budget means that the walk reached the end of the list
    and left nothing purgeable behind. *)
Lemma scan_loop_short :
  forall (l : list msm_gem_object) (freed : N),
  acc (scan l freed) < nr ->
  visited (scan l freed) = length l
  /\ Forall (fun o => is_purgeable o = false) (objs (scan l freed)).
Proof.
  induction l as [|x tl IH]; intros freed Hlt.
  - split; [reflexivity|constructor].
  - cbn [scan_loop] in *. destruct (nr <=? freed) eqn:Hb.
    + apply N.leb_le in Hb. cbn in Hlt. lia.
    + destruct (is_purgeable x) eqn:Hx; cbn [walk_cons acc objs visited] in *;
        destruct (IH _ Hlt) as [Hv Hall]; (split; [now rewrite Hv|]);
        constructor; auto using is_purgeable_purge.
Qed.

End ScanLoop.

(** ** The scan callback *)

Lemma scan_granted_fst (PAGE_SHIFT : N) (cur : ctx) (sc : shrink_control)
  (dev : drm_device) :
  granted cur dev ->
  fst (msm_gem_shrinker_scan PAGE_SHIFT cur sc dev)
  = acc (scan_loop PAGE_SHIFT (nr_to_scan sc) (inactive_list dev) 0).
Proof. intros Hg. now rewrite (scan_granted PAGE_SHIFT cur sc dev Hg). Qed.

Lemma inactive_list_trace_if (b : bool) (e : event)
  (l : list msm_gem_object) (dev : drm_device) :
  inactive_list (trace_if b e (set_inactive_list l dev)) = l.
Proof. destruct b; reflexivity. Qed.

Lemma scan_granted_list (PAGE_SHIFT : N) (cur : ctx) (sc : shrink_control)
  (dev : drm_device) :
  granted cur dev ->
  inactive_list (snd (msm_gem_shrinker_scan PAGE_SHIFT cur sc dev))
  = objs (scan_loop PAGE_SHIFT (nr_to_scan sc) (inactive_list dev) 0).
Proof.
  intros Hg. rewrite (scan_granted PAGE_SHIFT cur sc dev Hg). cbn [snd].
  apply inactive_list_trace_if.
Qed.

(** The scenario of three purgeable objects of 4, 2 and 8 pages and a budget
    of 5, on the loop. *)
Lemma scan_loop_4_2_8 (PAGE_SHIFT : N) (A B C : msm_gem_object) :
  is_purgeable A = true -> obj_pages PAGE_SHIFT A = 4 ->
  is_purgeable B = true -> obj_pages PAGE_SHIFT B = 2 ->
  scan_loop PAGE_SHIFT 5 [A; B; C] 0
  = {| objs := [msm_gem_purge A OBJ_LOCK_SHRINKER;
                msm_gem_purge B OBJ_LOCK_SHRINKER; C];
       acc := 6;
       visited := 2 |}.
Proof.
  intros HA HpA HB HpB. cbn [scan_loop].
  rewrite HA, HB, HpA, HpB. reflexivity.
Qed.

(** C1: in a scan that got the lock, split the inactive list at any object K
    into the objects before K and the rest.  If the running total of the
    loop over the objects before K has reached the budget, the rest is in the
    inactive list afterwards exactly as it was, and the scan returns that
    running total.  The same holds when the page total of the purgeable
    objects before K, which fits an unsigned long, has reached the budget.
    On three purgeable objects of 4, 2 and 8 pages a scan with budget 5
    purges the first two, leaves the third as it is, and returns 6. *)
Theorem msm_gem_shrinker_scan_stops_at_budget (PAGE_SHIFT : N) (cur : ctx)
  (sc : shrink_control) (dev : drm_device) (pre post : list msm_gem_object)
  (Hgranted : granted cur dev)
  (Hsplit : inactive_list dev = pre ++ post) :
  let r := msm_gem_shrinker_scan PAGE_SHIFT cur sc dev in
  let before := scan_loop PAGE_SHIFT (nr_to_scan sc) pre 0 in
  (nr_to_scan sc <= acc before ->
   inactive_list (snd r) = objs before ++ post /\ fst r = acc before)
  /\ (sum_purgeable_pages PAGE_SHIFT pre < 2 ^ BITS_PER_LONG ->
      nr_to_scan sc <= sum_purgeable_pages PAGE_SHIFT pre ->
      inactive_list (snd r) = objs before ++ post /\ fst r = acc before)
  /\ (forall A B C,
      pre = [A; B] -> post = [C] -> nr_to_scan sc = 5 ->
      is_purgeable A = true -> obj_pages PAGE_SHIFT A = 4 ->
      is_purgeable B = true -> obj_pages PAGE_SHIFT B = 2 ->
      is_purgeable C = true -> obj_pages PAGE_SHIFT C = 8 ->
      fst r = 6
      /\ inactive_list (snd r)
         = [msm_gem_purge A OBJ_LOCK_SHRINKER;
            msm_gem_purge B OBJ_LOCK_SHRINKER; C]).
Proof.
  intros r before.
  assert (Hstop : nr_to_scan sc <= acc before ->
                  inactive_list (snd r) = objs before ++ post
                  /\ fst r = acc before).
  { intros Hge. subst r before.
    rewrite scan_granted_list, scan_granted_fst by exact Hgranted.
    rewrite Hsplit, (scan_loop_app_stop PAGE_SHIFT _ post pre 0 Hge).
    split; reflexivity. }
  split; [exact Hstop|]. split.
  - intros Hfit Hge. apply Hstop. subst before.
    apply scan_loop_reaches; rewrite N.add_0_l; assumption.
  - intros A B C -> -> Hnr HA HpA HB HpB _ _. subst r.
    rewrite scan_granted_list, scan_granted_fst by exact Hgranted.
    rewrite Hsplit, Hnr. cbn [app].
    rewrite (scan_loop_4_2_8 PAGE_SHIFT A B C HA HpA HB HpB).
    split; reflexivity.
Qed.

Lemma msm_gem_shrinker_scan_stops_at_budget_witness :
  let dev := idle_device [purgeable_obj 12 4; purgeable_obj 12 2;
                          purgeable_obj 12 8] in
  let r := msm_gem_shrinker_scan 12 0%nat {| nr_to_scan := 5 |} dev in
  granted 0%nat dev
  /\ fst r = 6
  /\ inactive_list (snd r)
     = [msm_gem_purge (purgeable_obj 12 4) OBJ_LOCK_SHRINKER;
        msm_gem_purge (purgeable_obj 12 2) OBJ_LOCK_SHRINKER;
        purgeable_obj 12 8].
Proof.
  intros dev r.
  assert (Hg : granted 0%nat dev) by reflexivity.
  split; [exact Hg|].
  destruct (msm_gem_shrinker_scan_stops_at_budget 12 0%nat {| nr_to_scan := 5 |}
              dev [purgeable_obj 12 4; purgeable_obj 12 2]
              [purgeable_obj 12 8] Hg eq_refl) as (_ & _ & Hscenario).
  apply (Hscenario (purgeable_obj 12 4) (purgeable_obj 12 2)
           (purgeable_obj 12 8)); reflexivity.
Defined.

(** C8 fails as stated: on three purgeable objects of 4, 2 and 8 pages a scan
    with budget 5 returns 6, more than the budget. *)
Lemma msm_gem_shrinker_scan_exceeds_budget :
  ~ (fst (msm_gem_shrinker_scan 12 0%nat {| nr_to_scan := 5 |}
            (idle_device [purgeable_obj 12 4; purgeable_obj 12 2;
                          purgeable_obj 12 8]))
     <= nr_to_scan {| nr_to_scan := 5 |}).
Proof. vm_compute. intros H. apply H. reflexivity. Qed.

(** C8, amended: the budget is the threshold at which a scan that got the
    lock stops, not a cap on what it returns.  The total returned is 0, or it
    is below the budget plus the pages of one purgeable object of the
    inactive list; and a total below the budget means that no purgeable
    object is left in the inactive list. *)
Theorem msm_gem_shrinker_scan_overshoot (PAGE_SHIFT : N) (cur : ctx)
  (sc : shrink_control) (dev : drm_device)
  (Hgranted : granted cur dev) :
  let r := msm_gem_shrinker_scan PAGE_SHIFT cur sc dev in
  (fst r = 0
   \/ exists o, In o (inactive_list dev) /\ is_purgeable o = true
                /\ fst r < nr_to_scan sc + obj_pages PAGE_SHIFT o)
  /\ (fst r < nr_to_scan sc ->
      Forall (fun o => is_purgeable o = false) (inactive_list (snd r))).
Proof.
  intros r. subst r.
  rewrite scan_granted_list, scan_granted_fst by exact Hgranted. split.
  - apply scan_loop_overshoot.
  - intros Hlt. now apply scan_loop_short.
Qed.

Lemma msm_gem_shrinker_scan_overshoot_witness :
  let dev := idle_device [purgeable_obj 12 4; purgeable_obj 12 2;
                          purgeable_obj 12 8] in
  let r := msm_gem_shrinker_scan 12 0%nat {| nr_to_scan := 5 |} dev in
  granted 0%nat dev
  /\ (fst r = 0
      \/ exists o, In o (inactive_list dev) /\ is_purgeable o = true
                   /\ fst r < 5 + obj_pages 12 o).
Proof.
  intros dev r.
  assert (Hg : granted 0%nat dev) by reflexivity.
  split; [exact Hg|].
  exact (proj1 (msm_gem_shrinker_scan_overshoot 12 0%nat {| nr_to_scan := 5 |}
                  dev Hg)).
Defined.

(** ** The unmap loop *)

Lemma uint_succ_small (u : N) : u < 15 -> uint (u + 1) = u + 1.
Proof.
  intros Hu. unfold uint. apply N.mod_small.
  change (2 ^ 32) with 4294967296. lia.
Qed.

Lemma is_vunmapable_vunmap (o : msm_gem_object) (subclass : msm_gem_lock) :
  is_vunmapable (msm_gem_vunmap o subclass) = false.
Proof. reflexivity. Qed.

(** The counter of the loop ends at the number of unmappable objects, capped
    at 15. *)
Lemma vmap_loop_acc :
  forall (l : list msm_gem_object) (u : N),
  u < 15 ->
  acc (vmap_loop l u) = N.min 15 (u + count_vunmapable l).
Proof.
  induction l as [|o tl IH]; intros u Hu; cbn [vmap_loop count_vunmapable].
  - cbn [acc]. lia.
  - destruct (is_vunmapable o).
    + rewrite (uint_succ_small u Hu).
      destruct (15 <=? u + 1) eqn:Hb.
      * apply N.leb_le in Hb. cbn [acc]. lia.
      * apply N.leb_gt in Hb. cbn [walk_cons acc]. rewrite IH by exact Hb. lia.
    + cbn [walk_cons acc]. rewrite IH by exact Hu. lia.
Qed.

(** Every unmap takes one object out of the unmappable ones. *)
Lemma vmap_loop_count :
  forall (l : list msm_gem_object) (u : N),
  u < 15 ->
  count_vunmapable (objs (vmap_loop l u)) + acc (vmap_loop l u)
  = u + count_vunmapable l.
Proof.
  induction l as [|o tl IH]; intros u Hu; cbn [vmap_loop count_vunmapable].
  - cbn [objs acc count_vunmapable]. lia.
  - destruct (is_vunmapable o) eqn:Ho.
    + rewrite (uint_succ_small u Hu).
      destruct (15 <=? u + 1) eqn:Hb.
      * cbn [objs acc count_vunmapable]. rewrite is_vunmapable_vunmap. lia.
      * apply N.leb_gt in Hb.
        cbn [walk_cons objs acc count_vunmapable].
        rewrite is_vunmapable_vunmap. specialize (IH (u + 1) Hb). lia.
    + cbn [walk_cons objs acc count_vunmapable]. rewrite Ho.
      specialize (IH u Hu). lia.
Qed.

Lemma vmap_loop_visited_le :
  forall (l : list msm_gem_object) (u : N),
  (visited (vmap_loop l u) <= length l)%nat.
Proof.
  induction l as [|o tl IH]; intros u; cbn [vmap_loop]; [cbn; lia|].
  destruct (is_vunmapable o).
  - destruct (15 <=? uint (u + 1)); cbn; [lia|apply le_n_S, IH].
  - cbn. apply le_n_S, IH.
Qed.

(** An object that is not unmappable stays as it is, wherever it sits. *)
Lemma vmap_loop_keeps :
  forall (l : list msm_gem_object) (u : N) (i : nat) (o : msm_gem_object),
  nth_error l i = Some o -> is_vunmapable o = false ->
  nth_error (objs (vmap_loop l u)) i = Some o.
Proof.
  induction l as [|x tl IH]; intros u i o Hi Ho.
  - destruct i; discriminate.
  - cbn [vmap_loop]. destruct i as [|i].
    + cbn in Hi. injection Hi as ->. rewrite Ho. reflexivity.
    + cbn in Hi. destruct (is_vunmapable x).
      * destruct (15 <=? uint (u + 1)); cbn; [exact Hi|now apply IH].
      * cbn. now apply IH.
Qed.

(** The walk changes an object by unmapping it, and only if it could be
    unmapped. *)
Lemma vmap_loop_pointwise :
  forall (l : list msm_gem_object) (u : N),
  Forall2
    (fun o o' =>
       o' = o
       \/ (is_vunmapable o = true /\ o' = msm_gem_vunmap o OBJ_LOCK_SHRINKER))
    l (objs (vmap_loop l u)).
Proof.
  assert (Hsame : forall l : list msm_gem_object,
             Forall2
               (fun o o' =>
                  o' = o
                  \/ (is_vunmapable o = true
                      /\ o' = msm_gem_vunmap o OBJ_LOCK_SHRINKER)) l l).
  { induction l; constructor; auto. }
  induction l as [|o tl IH]; intros u; cbn [vmap_loop]; [constructor|].
  destruct (is_vunmapable o) eqn:Ho.
  - destruct (15 <=? uint (u + 1)); cbn; constructor; auto.
  - cbn. constructor; auto.
Qed.

Lemma count_vunmapable_all (l : list msm_gem_object) :
  Forall (fun o => is_vunmapable o = true) l ->
  count_vunmapable l = N.of_nat (length l).
Proof.
  induction 1 as [|o tl Ho _ IH]; [reflexivity|].
  cbn [count_vunmapable length]. rewrite Ho, IH. lia.
Qed.

Lemma count_vunmapable_none (l : list msm_gem_object) :
  count_vunmapable l = 0 ->
  Forall (fun o => is_vunmapable o = false) l.
Proof.
  induction l as [|o tl IH]; intros H0; [constructor|].
  cbn [count_vunmapable] in H0.
  destruct (is_vunmapable o) eqn:Ho; [lia|].
  constructor; [exact Ho|apply IH; lia].
Qed.

(** ** The unmap pass *)

(** C3: a pass of the vmap notifier that got the lock unmaps at most 15
    objects: its counter [u1], which it adds to the accumulator, is the
    number of unmappable objects capped at 15, the unmappable objects are
    that many fewer afterwards, and an object changes only by being unmapped
    while it was unmappable.  A pass on the resulting state unmaps what is
    left, again capped at 15.  With 20 objects, all unmappable, the first
    pass unmaps 15 and adds 15 to the accumulator, and the second unmaps the
    other 5. *)
Theorem msm_gem_shrinker_vmap_cap (cur : ctx) (ptr : N) (dev : drm_device)
  (Hgranted : granted cur dev) :
  let n := count_vunmapable (inactive_list dev) in
  let r1 := msm_gem_shrinker_vmap cur ptr dev in
  let u1 := acc (vmap_loop (inactive_list dev) 0) in
  let r2 := msm_gem_shrinker_vmap cur (snd (fst r1)) (snd r1) in
  let u2 := acc (vmap_loop (inactive_list (snd r1)) 0) in
  fst r1 = (NOTIFY_DONE, ulong (ptr + u1))
  /\ u1 <= 15
  /\ u1 = N.min 15 n
  /\ count_vunmapable (inactive_list (snd r1)) = n - u1
  /\ Forall2
       (fun o o' =>
          o' = o
          \/ (is_vunmapable o = true
              /\ o' = msm_gem_vunmap o OBJ_LOCK_SHRINKER))
       (inactive_list dev) (inactive_list (snd r1))
  /\ fst r2 = (NOTIFY_DONE, ulong (ulong (ptr + u1) + u2))
  /\ u2 = N.min 15 (n - u1)
  /\ count_vunmapable (inactive_list (snd r2)) = n - u1 - u2
  /\ (length (inactive_list dev) = 20%nat ->
      Forall (fun o => is_vunmapable o = true) (inactive_list dev) ->
      u1 = 15
      /\ snd (fst r1) = ulong (ptr + 15)
      /\ u2 = 5
      /\ Forall (fun o => is_vunmapable o = false) (inactive_list (snd r2))).
Proof.
  intros n r1 u1 r2 u2.
  assert (Hr1 : r1 = ((NOTIFY_DONE, ulong (ptr + u1)),
                      trace_if (0 <? u1) (trace_msm_gem_purge_vmaps u1)
                        (set_inactive_list
                           (objs (vmap_loop (inactive_list dev) 0)) dev)))
    by (apply vmap_granted; exact Hgranted).
  assert (Hl1 : inactive_list (snd r1)
                = objs (vmap_loop (inactive_list dev) 0))
    by (rewrite Hr1; apply inactive_list_trace_if).
  assert (Hg1 : granted cur (snd r1))
    by (rewrite Hr1; apply granted_trace_if; exact Hgranted).
  assert (Hr2 : r2 = ((NOTIFY_DONE, ulong (snd (fst r1) + u2)),
                      trace_if (0 <? u2) (trace_msm_gem_purge_vmaps u2)
                        (set_inactive_list
                           (objs (vmap_loop (inactive_list (snd r1)) 0))
                           (snd r1))))
    by (apply vmap_granted; exact Hg1).
  assert (Hl2 : inactive_list (snd r2)
                = objs (vmap_loop (inactive_list (snd r1)) 0))
    by (rewrite Hr2; apply inactive_list_trace_if).
  assert (Hu1 : u1 = N.min 15 n)
    by (subst u1 n; rewrite vmap_loop_acc by reflexivity; now rewrite N.add_0_l).
  assert (Hc1 : count_vunmapable (inactive_list (snd r1)) + u1 = n).
  { rewrite Hl1. subst u1 n.
    rewrite vmap_loop_count by reflexivity. apply N.add_0_l. }
  assert (Hu2 : u2 = N.min 15 (count_vunmapable (inactive_list (snd r1))))
    by (subst u2; rewrite vmap_loop_acc by reflexivity; now rewrite N.add_0_l).
  assert (Hc2 : count_vunmapable (inactive_list (snd r2)) + u2
                = count_vunmapable (inactive_list (snd r1))).
  { rewrite Hl2. subst u2.
    rewrite vmap_loop_count by reflexivity. apply N.add_0_l. }
  split; [now rewrite Hr1|].
  split; [lia|].
  split; [exact Hu1|].
  split; [lia|].
  split; [rewrite Hl1; apply vmap_loop_pointwise|].
  split; [rewrite Hr2, Hr1; reflexivity|].
  split; [lia|].
  split; [lia|].
  intros Hlen Hall.
  assert (Hn : n = 20)
    by (subst n; rewrite (count_vunmapable_all _ Hall), Hlen; reflexivity).
  split; [lia|].
  split; [rewrite Hr1; cbn [fst snd]; f_equal; lia|].
  split; [lia|].
  apply count_vunmapable_none. lia.
Qed.

Lemma msm_gem_shrinker_vmap_cap_witness :
  let dev := idle_device (repeat mapped_obj 20) in
  let r1 := msm_gem_shrinker_vmap 0%nat 0 dev in
  let r2 := msm_gem_shrinker_vmap 0%nat (snd (fst r1)) (snd r1) in
  granted 0%nat dev
  /\ acc (vmap_loop (inactive_list dev) 0) = 15
  /\ snd (fst r1) = ulong (0 + 15)
  /\ acc (vmap_loop (inactive_list (snd r1)) 0) = 5
  /\ Forall (fun o => is_vunmapable o = false) (inactive_list (snd r2)).
Proof.
  intros dev r1 r2.
  assert (Hg : granted 0%nat dev) by reflexivity.
  split; [exact Hg|].
  destruct (msm_gem_shrinker_vmap_cap 0%nat 0 dev Hg)
    as (_ & _ & _ & _ & _ & _ & _ & _ & Hscenario).
  apply Hscenario; [reflexivity|].
  repeat constructor.
Defined.

(** ** Objects in use *)

Lemma referenced_not_purgeable (o : msm_gem_object) :
  0 < refcount o -> is_purgeable o = false.
Proof.
  intros Href. unfold is_purgeable.
  assert (Hz : (refcount o =? 0) = false) by (apply N.eqb_neq; lia).
  rewrite Hz. now rewrite andb_false_r.
Qed.

Lemma referenced_not_vunmapable (o : msm_gem_object) :
  0 < refcount o -> is_vunmapable o = false.
Proof.
  intros Href. unfold is_vunmapable.
  assert (Hz : (refcount o =? 0) = false) by (apply N.eqb_neq; lia).
  rewrite Hz. apply andb_false_r.
Qed.

Lemma count_loop_skip (PAGE_SHIFT : N) (o : msm_gem_object)
  (l2 : list msm_gem_object) :
  is_purgeable o = false ->
  forall (l1 : list msm_gem_object) (count : N),
  count_loop PAGE_SHIFT (l1 ++ o :: l2) count
  = count_loop PAGE_SHIFT (l1 ++ l2) count.
Proof.
  intros Ho. induction l1 as [|x tl IH]; intros count; cbn [app count_loop].
  - now rewrite Ho.
  - destruct (is_purgeable x); apply IH.
Qed.

Lemma scan_loop_skip (PAGE_SHIFT nr : N) (o : msm_gem_object)
  (l2 : list msm_gem_object) :
  is_purgeable o = false ->
  forall (l1 : list msm_gem_object) (freed : N),
  acc (scan_loop PAGE_SHIFT nr (l1 ++ o :: l2) freed)
  = acc (scan_loop PAGE_SHIFT nr (l1 ++ l2) freed).
Proof.
  intros Ho. induction l1 as [|x tl IH]; intros freed; cbn [app].
  - cbn [scan_loop]. rewrite Ho.
    destruct (nr <=? freed) eqn:Hb; [|reflexivity].
    apply N.leb_le in Hb. now rewrite scan_loop_break.
  - cbn [scan_loop]. destruct (nr <=? freed); [reflexivity|].
    destruct (is_purgeable x); cbn [walk_cons acc]; apply IH.
Qed.

Lemma vmap_loop_skip (o : msm_gem_object) (l2 : list msm_gem_object) :
  is_vunmapable o = false ->
  forall (l1 : list msm_gem_object) (u : N),
  acc (vmap_loop (l1 ++ o :: l2) u) = acc (vmap_loop (l1 ++ l2) u).
Proof.
  intros Ho. induction l1 as [|x tl IH]; intros u; cbn [app].
  - cbn [vmap_loop]. now rewrite Ho.
  - cbn [vmap_loop]. destruct (is_vunmapable x).
    + destruct (15 <=? uint (u + 1)); [reflexivity|].
      cbn [walk_cons acc]. apply IH.
    + cbn [walk_cons acc]. apply IH.
Qed.

Lemma nth_error_middle (A : Type) (l1 l2 : list A) (a : A) :
  nth_error (l1 ++ a :: l2) (length l1) = Some a.
Proof. induction l1; cbn; auto. Qed.

Lemma granted_set_inactive_list (cur : ctx) (l : list msm_gem_object)
  (dev : drm_device) :
  granted cur (set_inactive_list l dev) <-> granted cur dev.
Proof. rewrite !granted_iff. reflexivity. Qed.

Lemma held_elsewhere_set_inactive_list (cur : ctx) (l : list msm_gem_object)
  (dev : drm_device) :
  held_elsewhere cur dev -> held_elsewhere cur (set_inactive_list l dev).
Proof. intros H. exact H. Qed.

(** C4: an object of the inactive list with a reference count above 0 is
    neither purgeable nor unmappable, whatever its discard advice and its
    mapping are.  The count callback, the scan and the unmap pass return what
    they return on the list without that object, and after the scan and
    after the unmap pass the object sits at its place unchanged. *)
Theorem referenced_object_never_selected (PAGE_SHIFT : N) (cur : ctx)
  (sc : shrink_control) (ptr : N) (dev : drm_device)
  (l1 l2 : list msm_gem_object) (o : msm_gem_object)
  (Hsplit : inactive_list dev = l1 ++ o :: l2)
  (Href : 0 < refcount o) :
  let without := set_inactive_list (l1 ++ l2) dev in
  is_purgeable o = false
  /\ is_vunmapable o = false
  /\ fst (msm_gem_shrinker_count PAGE_SHIFT cur sc dev)
     = fst (msm_gem_shrinker_count PAGE_SHIFT cur sc without)
  /\ fst (msm_gem_shrinker_scan PAGE_SHIFT cur sc dev)
     = fst (msm_gem_shrinker_scan PAGE_SHIFT cur sc without)
  /\ fst (msm_gem_shrinker_vmap cur ptr dev)
     = fst (msm_gem_shrinker_vmap cur ptr without)
  /\ nth_error
       (inactive_list (snd (msm_gem_shrinker_scan PAGE_SHIFT cur sc dev)))
       (length l1) = Some o
  /\ nth_error (inactive_list (snd (msm_gem_shrinker_vmap cur ptr dev)))
       (length l1) = Some o.
Proof.
  intros without.
  pose proof (referenced_not_purgeable o Href) as Hp.
  pose proof (referenced_not_vunmapable o Href) as Hv.
  assert (Hnth : nth_error (inactive_list dev) (length l1) = Some o)
    by (rewrite Hsplit; apply nth_error_middle).
  split; [exact Hp|]. split; [exact Hv|].
  assert (Hcases : granted cur dev \/ held_elsewhere cur dev).
  { destruct (lock_cases cur dev) as [H|[H|H]]; auto;
      left; apply granted_iff; auto. }
  destruct Hcases as [Hg|He].
  - assert (Hg' : granted cur without)
      by (apply granted_set_inactive_list; exact Hg).
    rewrite (count_granted PAGE_SHIFT cur sc dev Hg).
    rewrite (count_granted PAGE_SHIFT cur sc without Hg').
    rewrite (scan_granted PAGE_SHIFT cur sc dev Hg).
    rewrite (scan_granted PAGE_SHIFT cur sc without Hg').
    rewrite (vmap_granted cur ptr dev Hg).
    rewrite (vmap_granted cur ptr without Hg').
    cbn [fst snd]. rewrite !inactive_list_trace_if.
    unfold without at 1 2 3. cbn [inactive_list set_inactive_list].
    rewrite Hsplit.
    rewrite (count_loop_skip PAGE_SHIFT o l2 Hp).
    rewrite (scan_loop_skip PAGE_SHIFT _ o l2 Hp).
    rewrite (vmap_loop_skip o l2 Hv).
    repeat split.
    + rewrite <- Hsplit. now apply scan_loop_keeps.
    + rewrite <- Hsplit. now apply vmap_loop_keeps.
  - pose proof (held_elsewhere_set_inactive_list cur (l1 ++ l2) dev He) as He'.
    rewrite (count_contended PAGE_SHIFT cur sc dev He).
    rewrite (count_contended PAGE_SHIFT cur sc without He').
    rewrite (scan_contended PAGE_SHIFT cur sc dev He).
    rewrite (scan_contended PAGE_SHIFT cur sc without He').
    rewrite (vmap_contended cur ptr dev He).
    rewrite (vmap_contended cur ptr without He').
    cbn [fst snd]. repeat split; exact Hnth.
Qed.

Lemma referenced_object_never_selected_witness :
  let o := {| base := {| size := 8192 |};
              madv := MADV_WILLING_TO_DISCARD;
              refcount := 2;
              resident := true;
              vaddr := true |} in
  let dev := idle_device [purgeable_obj 12 4; o; mapped_obj] in
  0 < refcount o
  /\ fst (msm_gem_shrinker_count 12 0%nat {| nr_to_scan := 9 |} dev)
     = fst (msm_gem_shrinker_count 12 0%nat {| nr_to_scan := 9 |}
              (set_inactive_list [purgeable_obj 12 4; mapped_obj] dev))
  /\ nth_error
       (inactive_list
          (snd (msm_gem_shrinker_scan 12 0%nat {| nr_to_scan := 9 |} dev)))
       1 = Some o
  /\ nth_error (inactive_list (snd (msm_gem_shrinker_vmap 0%nat 0 dev))) 1
     = Some o.
Proof.
  intros o dev.
  assert (Href : 0 < refcount o) by reflexivity.
  split; [exact Href|].
  destruct (referenced_object_never_selected 12 0%nat {| nr_to_scan := 9 |}
              0 dev [purgeable_obj 12 4] [mapped_obj] o eq_refl Href)
    as (_ & _ & Hcount & _ & _ & Hscan & Hvmap).
  split; [exact Hcount|]. split; [exact Hscan|exact Hvmap].
Defined.

(** ** The work of a pass *)

Lemma scan_loop_visits_all (PAGE_SHIFT nr : N) :
  forall (l : list msm_gem_object) (freed : N),
  freed < nr ->
  Forall (fun o => is_purgeable o = false) l ->
  visited (scan_loop PAGE_SHIFT nr l freed) = length l.
Proof.
  induction l as [|o tl IH]; intros freed Hlt Hall; [reflexivity|].
  inversion Hall as [|? ? Ho Htl]; subst. cbn [scan_loop].
  apply N.leb_gt in Hlt. rewrite Hlt, Ho. apply N.leb_gt in Hlt.
  cbn [walk_cons visited length]. now rewrite IH.
Qed.

Lemma vmap_loop_visits_all :
  forall (l : list msm_gem_object) (u : N),
  Forall (fun o => is_vunmapable o = false) l ->
  visited (vmap_loop l u) = length l.
Proof.
  induction l as [|o tl IH]; intros u Hall; [reflexivity|].
  inversion Hall as [|? ? Ho Htl]; subst. cbn [vmap_loop]. rewrite Ho.
  cbn [walk_cons visited length]. now rewrite IH.
Qed.

Lemma busy_objs_not_purgeable (n : nat) :
  Forall (fun o => is_purgeable o = false) (repeat busy_obj n).
Proof. induction n; constructor; auto. Qed.

Lemma busy_objs_not_vunmapable (n : nat) :
  Forall (fun o => is_vunmapable o = false) (repeat busy_obj n).
Proof. induction n; constructor; auto. Qed.

(** A walk that ends before the end of the list has reached the budget. *)
Lemma scan_loop_early (PAGE_SHIFT nr : N) :
  forall (l : list msm_gem_object) (freed : N),
  (visited (scan_loop PAGE_SHIFT nr l freed) < length l)%nat ->
  nr <= acc (scan_loop PAGE_SHIFT nr l freed).
Proof.
  intros l freed Hv.
  destruct (N.le_gt_cases nr (acc (scan_loop PAGE_SHIFT nr l freed)))
    as [Hle|Hgt]; [exact Hle|].
  destruct (scan_loop_short PAGE_SHIFT nr l freed Hgt) as [Hall _]. lia.
Qed.

(** Without wrap-around, a scan visits at most as many objects as the budget
    has pages left, not counting the objects that add nothing. *)
Lemma scan_loop_work (PAGE_SHIFT nr : N) :
  forall (l : list msm_gem_object) (freed : N),
  freed + sum_purgeable_pages PAGE_SHIFT l < 2 ^ BITS_PER_LONG ->
  (visited (scan_loop PAGE_SHIFT nr l freed)
   <= N.to_nat (nr - freed) + length (scan_dead PAGE_SHIFT l))%nat.
Proof.
  induction l as [|o tl IH]; intros freed Hfit; [cbn; lia|].
  rewrite sum_purgeable_pages_cons in Hfit.
  unfold scan_dead in *. cbn [scan_loop filter].
  destruct (nr <=? freed) eqn:Hb; [cbn; lia|]. apply N.leb_gt in Hb.
  destruct (is_purgeable o) eqn:Ho; cbn [negb orb walk_cons visited].
  - assert (Hs : ulong (freed + obj_pages PAGE_SHIFT o)
                 = freed + obj_pages PAGE_SHIFT o)
      by (apply ulong_small; lia).
    rewrite Hs. specialize (IH (freed + obj_pages PAGE_SHIFT o)).
    destruct (obj_pages PAGE_SHIFT o =? 0) eqn:Hz.
    + apply N.eqb_eq in Hz. rewrite Hz in *. rewrite N.add_0_r in *.
      cbn [length]. specialize (IH ltac:(lia)). lia.
    + apply N.eqb_neq in Hz. specialize (IH ltac:(lia)). lia.
  - cbn [length]. specialize (IH freed ltac:(lia)). lia.
Qed.

(** An unmap pass visits at most as many objects as the cap leaves room for,
    not counting the objects it cannot unmap. *)
Lemma vmap_loop_work :
  forall (l : list msm_gem_object) (u : N),
  u < 15 ->
  (visited (vmap_loop l u) <= N.to_nat (15 - u) + length (vmap_dead l))%nat.
Proof.
  induction l as [|o tl IH]; intros u Hu; [cbn; lia|].
  unfold vmap_dead in *. cbn [vmap_loop filter].
  destruct (is_vunmapable o); cbn [negb].
  - rewrite (uint_succ_small u Hu).
    destruct (15 <=? u + 1) eqn:Hb; cbn [walk_cons visited]; [lia|].
    apply N.leb_gt in Hb. specialize (IH (u + 1) Hb). lia.
  - cbn [walk_cons visited length]. specialize (IH u Hu). lia.
Qed.

Lemma vmap_loop_early :
  forall (l : list msm_gem_object) (u : N),
  u < 15 ->
  (visited (vmap_loop l u) < length l)%nat ->
  acc (vmap_loop l u) = 15.
Proof.
  induction l as [|o tl IH]; intros u Hu Hv; [cbn in Hv; lia|].
  cbn [vmap_loop] in *. destruct (is_vunmapable o).
  - rewrite (uint_succ_small u Hu) in *.
    destruct (15 <=? u + 1) eqn:Hb.
    + apply N.leb_le in Hb. cbn [acc]. lia.
    + apply N.leb_gt in Hb. cbn [walk_cons acc visited length] in *.
      apply IH; [exact Hb|lia].
  - cbn [walk_cons acc visited length] in *. apply IH; [exact Hu|lia].
Qed.

(** C9 fails as stated: with a budget of 1 the scan visits every one of 1000
    objects in use, and so does the unmap pass; and no constant bounds the
    work of the scan by the budget, or the work of the unmap pass by the cap
    of 15, for all inactive lists. *)
Lemma work_grows_with_inactive_list :
  visited (scan_loop 12 1 (repeat busy_obj 1000) 0) = 1000%nat
  /\ visited (vmap_loop (repeat busy_obj 1000) 0) = 1000%nat
  /\ ~ (exists c, scan_work_bounded_by_budget c)
  /\ ~ (exists c, vmap_work_bounded_by_cap c).
Proof.
  split; [|split; [|split]].
  - rewrite scan_loop_visits_all;
      [apply repeat_length|reflexivity|apply busy_objs_not_purgeable].
  - rewrite vmap_loop_visits_all by apply busy_objs_not_vunmapable.
    apply repeat_length.
  - intros (c & Hc).
    specialize (Hc 12 1 (repeat busy_obj (S (c * 2)))).
    rewrite scan_loop_visits_all in Hc;
      [|reflexivity|apply busy_objs_not_purgeable].
    rewrite repeat_length in Hc. cbn in Hc. lia.
  - intros (c & Hc).
    specialize (Hc (repeat busy_obj (S (c * 15)))).
    rewrite vmap_loop_visits_all in Hc by apply busy_objs_not_vunmapable.
    rewrite repeat_length in Hc. lia.
Qed.

(** ** Registration and cleanup *)

(** A failed allocation leaves the shrinker handle null and registers
    nothing. *)
Lemma msm_gem_shrinker_init_failed (dev : drm_device) :
  msm_gem_shrinker_init None dev = ((- ENOMEM)%Z, set_shrinker None dev).
Proof. reflexivity. Qed.

(** With a shrinker in place cleanup unregisters the notifier and then frees
    the shrinker; the warning fires when the notifier was not registered. *)
Lemma msm_gem_shrinker_cleanup_registered (s : shrinker_t)
  (dev : drm_device) :
  shrinker dev = Some s ->
  events (snd (msm_gem_shrinker_cleanup dev))
  = events dev
    ++ [ev_unregister_vmap_purge_notifier]
    ++ (if vmap_notifier_registered dev then [] else [ev_WARN])
    ++ [ev_shrinker_free].
Proof.
  intros Hs. unfold msm_gem_shrinker_cleanup, bind, get. rewrite Hs.
  unfold unregister_vmap_purge_notifier.
  destruct (vmap_notifier_registered dev); cbn; now rewrite <- ?app_assoc.
Qed.

(** C10: cleanup on a device whose shrinker handle is null does nothing: it
    returns with the device state as it was, so the notifier is not
    unregistered, the shrinker is not freed and no warning is raised.  This
    is the state that an init with a failed allocation leaves behind. *)
Theorem msm_gem_shrinker_cleanup_null (dev : drm_device)
  (Hnull : shrinker dev = None) :
  msm_gem_shrinker_cleanup dev = (tt, dev)
  /\ events (snd (msm_gem_shrinker_cleanup dev)) = events dev
  /\ (forall alloc_failed_on : drm_device,
      let dev' := snd (msm_gem_shrinker_init None alloc_failed_on) in
      shrinker dev' = None
      /\ msm_gem_shrinker_cleanup dev' = (tt, dev')).
Proof.
  assert (Hnop : forall d, shrinker d = None ->
                           msm_gem_shrinker_cleanup d = (tt, d)).
  { intros d Hd. unfold msm_gem_shrinker_cleanup, bind, get.
    rewrite Hd. reflexivity. }
  split; [now apply Hnop|].
  split; [now rewrite Hnop|].
  intros d dev'. subst dev'. rewrite msm_gem_shrinker_init_failed.
  cbn [snd]. split; [reflexivity|]. now apply Hnop.
Qed.

Lemma msm_gem_shrinker_cleanup_null_witness :
  shrinker (idle_device [mapped_obj]) = None
  /\ msm_gem_shrinker_cleanup (idle_device [mapped_obj])
     = (tt, idle_device [mapped_obj]).
Proof.
  assert (Hnull : shrinker (idle_device [mapped_obj]) = None) by reflexivity.
  split; [exact Hnull|].
  exact (proj1 (msm_gem_shrinker_cleanup_null (idle_device [mapped_obj])
                  Hnull)).
Defined.

(** ** Instances at concrete states *)

Lemma msm_gem_shrinker_lock_three_way_witness :
  let dev := idle_device [] in
  let held := set_struct_mutex {| owner := Some 7%nat |} dev in
  owner (struct_mutex dev) = None
  /\ msm_gem_shrinker_lock 7%nat dev = ((true, Some true), held)
  /\ msm_gem_shrinker_lock 7%nat held = ((true, Some false), held)
  /\ held_elsewhere 3%nat held
  /\ msm_gem_shrinker_lock 3%nat held = ((false, None), held).
Proof.
  intros dev held.
  assert (Hfree : owner (struct_mutex dev) = None) by reflexivity.
  assert (Hmine : owner (struct_mutex held) = Some 7%nat) by reflexivity.
  assert (Hother : held_elsewhere 3%nat held).
  { exists 7%nat. split; [reflexivity|]. intros H. discriminate H. }
  split; [exact Hfree|].
  split.
  { exact (proj1 (msm_gem_shrinker_lock_three_way 7%nat dev) Hfree). }
  split.
  { exact (proj1 (proj2 (msm_gem_shrinker_lock_three_way 7%nat held)) Hmine). }
  split; [exact Hother|].
  exact (proj1 (proj2 (proj2 (msm_gem_shrinker_lock_three_way 3%nat held)))
           Hother).
Defined.

Lemma contended_entry_points_do_nothing_witness :
  let dev := set_struct_mutex {| owner := Some 7%nat |}
               (idle_device [purgeable_obj 12 4; mapped_obj]) in
  held_elsewhere 3%nat dev
  /\ msm_gem_shrinker_count 12 3%nat {| nr_to_scan := 5 |} dev = (0, dev)
  /\ msm_gem_shrinker_scan 12 3%nat {| nr_to_scan := 5 |} dev
     = (SHRINK_STOP, dev)
  /\ msm_gem_shrinker_vmap 3%nat 40 dev = ((NOTIFY_DONE, 40), dev).
Proof.
  intros dev.
  assert (Hother : held_elsewhere 3%nat dev).
  { exists 7%nat. split; [reflexivity|]. intros H. discriminate H. }
  split; [exact Hother|].
  exact (contended_entry_points_do_nothing 12 3%nat {| nr_to_scan := 5 |} 40
           dev Hother).
Defined.

Lemma msm_gem_shrinker_count_sum_witness :
  let dev := idle_device [purgeable_obj 12 4; busy_obj; purgeable_obj 12 2] in
  granted 0%nat dev
  /\ sum_purgeable_pages 12 (inactive_list dev) < 2 ^ BITS_PER_LONG
  /\ fst (msm_gem_shrinker_count 12 0%nat {| nr_to_scan := 0 |} dev)
     = fold_right N.add 0
         (map (fun o => N.shiftr (size (base o)) 12)
            (filter is_purgeable (inactive_list dev))).
Proof.
  intros dev.
  assert (Hg : granted 0%nat dev) by reflexivity.
  assert (Hfit : sum_purgeable_pages 12 (inactive_list dev)
                 < 2 ^ BITS_PER_LONG) by reflexivity.
  split; [exact Hg|]. split; [exact Hfit|].
  exact (proj2 (proj1 (msm_gem_shrinker_count_sum 12 0%nat
                         {| nr_to_scan := 0 |} dev) Hg) Hfit).
Defined.

(** ** Further properties of the entry points *)

Lemma struct_mutex_trace_if (b : bool) (e : event)
  (l : list msm_gem_object) (dev : drm_device) :
  struct_mutex (trace_if b e (set_inactive_list l dev)) = struct_mutex dev.
Proof. destruct b; reflexivity. Qed.

Lemma registration_trace_if (b : bool) (e : event)
  (l : list msm_gem_object) (dev : drm_device) :
  let dev' := trace_if b e (set_inactive_list l dev) in
  shrinker dev' = shrinker dev
  /\ vmap_notifier dev' = vmap_notifier dev
  /\ vmap_notifier_registered dev' = vmap_notifier_registered dev.
Proof. destruct b; repeat split. Qed.

Lemma granted_or_held_elsewhere (cur : ctx) (dev : drm_device) :
  granted cur dev \/ held_elsewhere cur dev.
Proof.
  destruct (lock_cases cur dev) as [H|[H|H]]; auto;
    left; apply granted_iff; auto.
Qed.

(** X1: the scan and the unmap pass leave the lock as they found it: free if
    it was free, still owned by the caller if the caller owned it (the pass
    does not release a lock it did not take), still owned by the other
    context if it was refused.  They do not touch the shrinker handle or the
    notifier registration either. *)
Theorem passes_restore_lock (PAGE_SHIFT : N) (cur : ctx)
  (sc : shrink_control) (ptr : N) (dev : drm_device) :
  let ds := snd (msm_gem_shrinker_scan PAGE_SHIFT cur sc dev) in
  let dv := snd (msm_gem_shrinker_vmap cur ptr dev) in
  struct_mutex ds = struct_mutex dev
  /\ struct_mutex dv = struct_mutex dev
  /\ shrinker ds = shrinker dev
  /\ shrinker dv = shrinker dev
  /\ vmap_notifier_registered ds = vmap_notifier_registered dev
  /\ vmap_notifier_registered dv = vmap_notifier_registered dev.
Proof.
  intros ds dv. subst ds dv.
  destruct (granted_or_held_elsewhere cur dev) as [Hg|He].
  - rewrite (scan_granted PAGE_SHIFT cur sc dev Hg).
    rewrite (vmap_granted cur ptr dev Hg). cbn [snd].
    rewrite !struct_mutex_trace_if.
    repeat split; apply registration_trace_if.
  - rewrite (scan_contended PAGE_SHIFT cur sc dev He).
    rewrite (vmap_contended cur ptr dev He). repeat split.
Qed.

Lemma events_trace_if (b : bool) (e : event)
  (l : list msm_gem_object) (dev : drm_device) :
  events (trace_if b e (set_inactive_list l dev))
  = events dev ++ (if b then [e] else []).
Proof. destruct b; cbn; [reflexivity|now rewrite app_nil_r]. Qed.

(** X2: a scan that got the lock hits the purge tracepoint exactly when it
    freed something, once, with the freed pages shifted to bytes in an
    unsigned long; the unmap pass hits its tracepoint exactly when it
    unmapped something, once, with the number of objects unmapped.  A pass
    that was refused the lock traces nothing. *)
Theorem passes_trace (PAGE_SHIFT : N) (cur : ctx)
  (sc : shrink_control) (ptr : N) (dev : drm_device) :
  let rs := msm_gem_shrinker_scan PAGE_SHIFT cur sc dev in
  let rv := msm_gem_shrinker_vmap cur ptr dev in
  let unmapped := acc (vmap_loop (inactive_list dev) 0) in
  (granted cur dev ->
   events (snd rs)
   = events dev
     ++ (if 0 <? fst rs
         then [trace_msm_gem_purge (ulong (N.shiftl (fst rs) PAGE_SHIFT))]
         else [])
   /\ events (snd rv)
      = events dev
        ++ (if 0 <? unmapped then [trace_msm_gem_purge_vmaps unmapped]
            else []))
  /\ (held_elsewhere cur dev ->
      events (snd rs) = events dev /\ events (snd rv) = events dev).
Proof.
  intros rs rv unmapped. subst rs rv unmapped. split.
  - intros Hg. rewrite (scan_granted PAGE_SHIFT cur sc dev Hg).
    rewrite (vmap_granted cur ptr dev Hg). cbn [fst snd].
    split; apply events_trace_if.
  - intros He. rewrite (scan_contended PAGE_SHIFT cur sc dev He).
    rewrite (vmap_contended cur ptr dev He). split; reflexivity.
Qed.

Lemma passes_trace_witness :
  let dev := idle_device [purgeable_obj 12 4; mapped_obj] in
  granted 0%nat dev
  /\ events (snd (msm_gem_shrinker_scan 12 0%nat {| nr_to_scan := 1 |} dev))
     = [trace_msm_gem_purge 16384]
  /\ events (snd (msm_gem_shrinker_vmap 0%nat 0 dev))
     = [trace_msm_gem_purge_vmaps 1].
Proof.
  intros dev.
  assert (Hg : granted 0%nat dev) by reflexivity.
  split; [exact Hg|].
  exact (proj1 (passes_trace 12 0%nat {| nr_to_scan := 1 |} 0 dev) Hg).
Defined.

(** ** The scan as a walk over a prefix *)

Section ScanPrefix.

Variable PAGE_SHIFT : N.
Variable nr : N.

Local Abbreviation scan := (scan_loop PAGE_SHIFT nr).
Local Abbreviation pages := (sum_purgeable_pages PAGE_SHIFT).

Lemma scan_loop_prefix :
  forall (l : list msm_gem_object) (freed : N),
  objs (scan l freed)
  = map purge_if_purgeable (firstn (visited (scan l freed)) l)
    ++ skipn (visited (scan l freed)) l.
Proof.
  induction l as [|o tl IH]; intros freed; [reflexivity|].
  cbn [scan_loop]. destruct (nr <=? freed); [reflexivity|].
  destruct (is_purgeable o) eqn:Ho;
    cbn [walk_cons objs visited firstn skipn map app];
    unfold purge_if_purgeable at 1; rewrite Ho; f_equal; apply IH.
Qed.

Lemma scan_loop_total :
  forall (l : list msm_gem_object) (freed : N),
  freed + pages l < 2 ^ BITS_PER_LONG ->
  acc (scan l freed) = freed + pages (firstn (visited (scan l freed)) l).
Proof.
  induction l as [|o tl IH]; intros freed Hfit; [cbn; lia|].
  rewrite sum_purgeable_pages_cons in Hfit. cbn [scan_loop].
  destruct (nr <=? freed); [cbn; lia|].
  destruct (is_purgeable o) eqn:Ho; cbn [walk_cons acc visited firstn];
    rewrite sum_purgeable_pages_cons, Ho.
  - assert (Hs : ulong (freed + obj_pages PAGE_SHIFT o)
                 = freed + obj_pages PAGE_SHIFT o)
      by (apply ulong_small; lia).
    rewrite Hs, IH by lia. lia.
  - rewrite IH by lia. lia.
Qed.

(** What the scan frees is what is no longer purgeable afterwards. *)
Lemma scan_loop_conserve :
  forall (l : list msm_gem_object) (freed : N),
  freed + pages l < 2 ^ BITS_PER_LONG ->
  acc (scan l freed) + pages (objs (scan l freed)) = freed + pages l.
Proof.
  induction l as [|o tl IH]; intros freed Hfit; [reflexivity|].
  rewrite sum_purgeable_pages_cons in *. cbn [scan_loop].
  destruct (nr <=? freed).
  - cbn [acc objs]. now rewrite sum_purgeable_pages_cons.
  - destruct (is_purgeable o) eqn:Ho; cbn [walk_cons acc objs];
      rewrite sum_purgeable_pages_cons.
    + assert (Hs : ulong (freed + obj_pages PAGE_SHIFT o)
                   = freed + obj_pages PAGE_SHIFT o)
        by (apply ulong_small; lia).
      rewrite is_purgeable_purge, Hs.
      specialize (IH (freed + obj_pages PAGE_SHIFT o) ltac:(lia)). lia.
    + rewrite Ho. specialize (IH freed ltac:(lia)). lia.
Qed.

Lemma scan_loop_none :
  forall (l : list msm_gem_object) (freed : N),
  Forall (fun o => is_purgeable o = false) l ->
  objs (scan l freed) = l /\ acc (scan l freed) = freed.
Proof.
  induction l as [|o tl IH]; intros freed Hall; [split; reflexivity|].
  inversion Hall as [|? ? Ho Htl]; subst. cbn [scan_loop].
  destruct (nr <=? freed); [split; reflexivity|].
  rewrite Ho. cbn [walk_cons objs acc].
  destruct (IH freed Htl) as [-> ->]. split; reflexivity.
Qed.

(** The walk changes an object by purging it, and only if it was
    purgeable. *)
Lemma scan_loop_pointwise :
  forall (l : list msm_gem_object) (freed : N),
  Forall2
    (fun o o' =>
       o' = o
       \/ (is_purgeable o = true /\ o' = msm_gem_purge o OBJ_LOCK_SHRINKER))
    l (objs (scan l freed)).
Proof.
  assert (Hsame : forall l : list msm_gem_object,
             Forall2
               (fun o o' =>
                  o' = o
                  \/ (is_purgeable o = true
                      /\ o' = msm_gem_purge o OBJ_LOCK_SHRINKER)) l l).
  { induction l; constructor; auto. }
  induction l as [|o tl IH]; intros freed; cbn [scan_loop]; [constructor|].
  destruct (nr <=? freed); [apply Hsame|].
  destruct (is_purgeable o) eqn:Ho; cbn; constructor; auto.
Qed.

End ScanPrefix.

(** Without wrap-around a larger budget never frees less. *)
Lemma scan_loop_bounds (PAGE_SHIFT nr : N) :
  forall (l : list msm_gem_object) (freed : N),
  freed + sum_purgeable_pages PAGE_SHIFT l < 2 ^ BITS_PER_LONG ->
  freed <= acc (scan_loop PAGE_SHIFT nr l freed)
  /\ acc (scan_loop PAGE_SHIFT nr l freed)
     <= freed + sum_purgeable_pages PAGE_SHIFT l.
Proof.
  induction l as [|o tl IH]; intros freed Hfit; [cbn; lia|].
  rewrite sum_purgeable_pages_cons in *. cbn [scan_loop].
  destruct (nr <=? freed); [cbn [acc]; lia|].
  destruct (is_purgeable o); cbn [walk_cons acc].
  - assert (Hs : ulong (freed + obj_pages PAGE_SHIFT o)
                 = freed + obj_pages PAGE_SHIFT o)
      by (apply ulong_small; lia).
    rewrite Hs. specialize (IH (freed + obj_pages PAGE_SHIFT o) ltac:(lia)).
    lia.
  - specialize (IH freed ltac:(lia)). lia.
Qed.

Lemma scan_loop_mono (PAGE_SHIFT nr1 nr2 : N) :
  nr1 <= nr2 ->
  forall (l : list msm_gem_object) (freed : N),
  freed + sum_purgeable_pages PAGE_SHIFT l < 2 ^ BITS_PER_LONG ->
  acc (scan_loop PAGE_SHIFT nr1 l freed)
  <= acc (scan_loop PAGE_SHIFT nr2 l freed).
Proof.
  intros Hle. induction l as [|o tl IH]; intros freed Hfit; [cbn; lia|].
  pose proof (scan_loop_bounds PAGE_SHIFT nr2 (o :: tl) freed Hfit) as Hb.
  rewrite sum_purgeable_pages_cons in *. cbn [scan_loop] in *.
  destruct (nr1 <=? freed) eqn:H1.
  - cbn [acc]. lia.
  - apply N.leb_gt in H1.
    assert (H2 : (nr2 <=? freed) = false) by (apply N.leb_gt; lia).
    rewrite H2 in *.
    destruct (is_purgeable o); cbn [walk_cons acc] in *.
    + assert (Hs : ulong (freed + obj_pages PAGE_SHIFT o)
                   = freed + obj_pages PAGE_SHIFT o)
        by (apply ulong_small; lia).
      rewrite Hs in *. apply IH. lia.
    + apply IH. lia.
Qed.

Lemma set_inactive_list_same (dev : drm_device) :
  set_inactive_list (inactive_list dev) dev = dev.
Proof. destruct dev; reflexivity. Qed.

Lemma vmap_loop_none :
  forall (l : list msm_gem_object) (u : N),
  Forall (fun o => is_vunmapable o = false) l ->
  objs (vmap_loop l u) = l /\ acc (vmap_loop l u) = u.
Proof.
  induction l as [|o tl IH]; intros u Hall; [split; reflexivity|].
  inversion Hall as [|? ? Ho Htl]; subst. cbn [vmap_loop]. rewrite Ho.
  cbn [walk_cons objs acc]. destruct (IH u Htl) as [-> ->].
  split; reflexivity.
Qed.

Lemma vmap_loop_length :
  forall (l : list msm_gem_object) (u : N),
  length (objs (vmap_loop l u)) = length l.
Proof.
  intros l u. symmetry.
  exact (Forall2_length (vmap_loop_pointwise l u)).
Qed.

(** X3: a scan that got the lock purges the purgeable objects of a prefix of
    the inactive list and nothing else: the list afterwards is that prefix
    with its purgeable objects purged, followed by the rest as it was; and
    while the purgeable pages of the list fit an unsigned long the scan
    returns the page total of the purgeable objects of that prefix. *)
Theorem msm_gem_shrinker_scan_prefix (PAGE_SHIFT : N) (cur : ctx)
  (sc : shrink_control) (dev : drm_device)
  (Hgranted : granted cur dev) :
  let l := inactive_list dev in
  let rs := msm_gem_shrinker_scan PAGE_SHIFT cur sc dev in
  exists v : nat,
    (v <= length l)%nat
    /\ inactive_list (snd rs)
       = map purge_if_purgeable (firstn v l) ++ skipn v l
    /\ (sum_purgeable_pages PAGE_SHIFT l < 2 ^ BITS_PER_LONG ->
        fst rs = sum_purgeable_pages PAGE_SHIFT (firstn v l)).
Proof.
  intros l rs. subst rs.
  exists (visited (scan_loop PAGE_SHIFT (nr_to_scan sc) l 0)).
  rewrite scan_granted_list, scan_granted_fst by exact Hgranted.
  split; [apply scan_loop_visited_le|].
  split; [apply scan_loop_prefix|].
  intros Hfit. fold l. rewrite scan_loop_total by (rewrite N.add_0_l; exact Hfit).
  apply N.add_0_l.
Qed.

Lemma msm_gem_shrinker_scan_prefix_witness :
  let l := [purgeable_obj 12 4; busy_obj; purgeable_obj 12 2;
            purgeable_obj 12 8] in
  let rs := msm_gem_shrinker_scan 12 0%nat {| nr_to_scan := 5 |}
              (idle_device l) in
  granted 0%nat (idle_device l)
  /\ exists v : nat,
       (v <= length l)%nat
       /\ inactive_list (snd rs)
          = map purge_if_purgeable (firstn v l) ++ skipn v l
       /\ (sum_purgeable_pages 12 l < 2 ^ BITS_PER_LONG ->
           fst rs = sum_purgeable_pages 12 (firstn v l)).
Proof.
  intros l rs.
  assert (Hg : granted 0%nat (idle_device l)) by reflexivity.
  split; [exact Hg|].
  exact (msm_gem_shrinker_scan_prefix 12 0%nat {| nr_to_scan := 5 |}
           (idle_device l) Hg).
Defined.

(** X4: a scan that got the lock and has a budget of 0, or finds no
    purgeable object, returns 0 and leaves the device exactly as it was: no
    object changes and the tracepoint is not hit. *)
Theorem msm_gem_shrinker_scan_nothing_to_do (PAGE_SHIFT : N) (cur : ctx)
  (sc : shrink_control) (dev : drm_device)
  (Hgranted : granted cur dev)
  (Hidle : nr_to_scan sc = 0
           \/ Forall (fun o => is_purgeable o = false) (inactive_list dev)) :
  msm_gem_shrinker_scan PAGE_SHIFT cur sc dev = (0, dev).
Proof.
  rewrite (scan_granted PAGE_SHIFT cur sc dev Hgranted).
  assert (Hw : objs (scan_loop PAGE_SHIFT (nr_to_scan sc)
                       (inactive_list dev) 0) = inactive_list dev
               /\ acc (scan_loop PAGE_SHIFT (nr_to_scan sc)
                         (inactive_list dev) 0) = 0).
  { destruct Hidle as [H0|Hall].
    - rewrite scan_loop_break by (rewrite H0; apply N.le_refl).
      split; reflexivity.
    - now apply scan_loop_none. }
  destruct Hw as [-> ->]. cbn [N.ltb N.compare trace_if].
  now rewrite set_inactive_list_same.
Qed.

Lemma msm_gem_shrinker_scan_nothing_to_do_witness :
  let dev := idle_device [purgeable_obj 12 4; busy_obj] in
  granted 0%nat dev
  /\ nr_to_scan {| nr_to_scan := 0 |} = 0
  /\ msm_gem_shrinker_scan 12 0%nat {| nr_to_scan := 0 |} dev = (0, dev).
Proof.
  intros dev.
  assert (Hg : granted 0%nat dev) by reflexivity.
  split; [exact Hg|]. split; [reflexivity|].
  exact (msm_gem_shrinker_scan_nothing_to_do 12 0%nat {| nr_to_scan := 0 |}
           dev Hg (or_introl eq_refl)).
Defined.

(** X5: an unmap pass that got the lock and finds no unmappable object leaves
    the device exactly as it was, hits no tracepoint, and stores the
    accumulator back as it was (reduced to an unsigned long). *)
Theorem msm_gem_shrinker_vmap_nothing_to_do (cur : ctx) (ptr : N)
  (dev : drm_device)
  (Hgranted : granted cur dev)
  (Hnone : Forall (fun o => is_vunmapable o = false) (inactive_list dev)) :
  msm_gem_shrinker_vmap cur ptr dev = ((NOTIFY_DONE, ulong ptr), dev).
Proof.
  rewrite (vmap_granted cur ptr dev Hgranted).
  destruct (vmap_loop_none (inactive_list dev) 0 Hnone) as [-> ->].
  cbn [N.ltb N.compare trace_if].
  now rewrite set_inactive_list_same, N.add_0_r.
Qed.

Lemma msm_gem_shrinker_vmap_nothing_to_do_witness :
  let dev := idle_device [busy_obj; purgeable_obj 12 4] in
  granted 0%nat dev
  /\ Forall (fun o => is_vunmapable o = false) (inactive_list dev)
  /\ msm_gem_shrinker_vmap 0%nat 9 dev = ((NOTIFY_DONE, ulong 9), dev).
Proof.
  intros dev.
  assert (Hg : granted 0%nat dev) by reflexivity.
  assert (Hnone : Forall (fun o => is_vunmapable o = false)
                    (inactive_list dev)) by (repeat constructor).
  split; [exact Hg|]. split; [exact Hnone|].
  exact (msm_gem_shrinker_vmap_nothing_to_do 0%nat 9 dev Hg Hnone).
Defined.

Lemma sum_purgeable_pages_none (PAGE_SHIFT : N) (l : list msm_gem_object) :
  Forall (fun o => is_purgeable o = false) l ->
  sum_purgeable_pages PAGE_SHIFT l = 0.
Proof.
  induction 1 as [|o tl Ho _ IH]; [reflexivity|].
  now rewrite sum_purgeable_pages_cons, Ho, IH.
Qed.

Lemma count_granted_fits (PAGE_SHIFT : N) (cur : ctx) (sc : shrink_control)
  (dev : drm_device) :
  granted cur dev ->
  sum_purgeable_pages PAGE_SHIFT (inactive_list dev) < 2 ^ BITS_PER_LONG ->
  fst (msm_gem_shrinker_count PAGE_SHIFT cur sc dev)
  = sum_purgeable_pages PAGE_SHIFT (inactive_list dev).
Proof.
  intros Hg Hfit. rewrite (count_granted PAGE_SHIFT cur sc dev Hg). cbn [fst].
  rewrite count_loop_sum by reflexivity.
  rewrite N.add_0_l. now apply ulong_small.
Qed.

Lemma granted_after_scan (PAGE_SHIFT : N) (cur : ctx) (sc : shrink_control)
  (dev : drm_device) :
  granted cur dev ->
  granted cur (snd (msm_gem_shrinker_scan PAGE_SHIFT cur sc dev)).
Proof.
  intros Hg. rewrite (scan_granted PAGE_SHIFT cur sc dev Hg). cbn [snd].
  now apply granted_trace_if.
Qed.

(** X6: count and scan agree.  While the purgeable pages of the inactive
    list fit an unsigned long, and the lock is granted, what a scan returns
    plus what a count returns after it is what a count returned before it;
    so a scan never returns more than the count before it, and with a budget
    of at least that count it returns exactly the count and the next count
    is 0. *)
Theorem msm_gem_shrinker_count_after_scan (PAGE_SHIFT : N) (cur : ctx)
  (sc sc' : shrink_control) (dev : drm_device)
  (Hgranted : granted cur dev)
  (Hfit : sum_purgeable_pages PAGE_SHIFT (inactive_list dev)
          < 2 ^ BITS_PER_LONG) :
  let before := fst (msm_gem_shrinker_count PAGE_SHIFT cur sc' dev) in
  let rs := msm_gem_shrinker_scan PAGE_SHIFT cur sc dev in
  let after := fst (msm_gem_shrinker_count PAGE_SHIFT cur sc' (snd rs)) in
  fst rs + after = before
  /\ fst rs <= before
  /\ (before <= nr_to_scan sc -> fst rs = before /\ after = 0).
Proof.
  intros before rs after.
  pose proof (scan_loop_conserve PAGE_SHIFT (nr_to_scan sc)
                (inactive_list dev) 0) as Hcons.
  rewrite N.add_0_l in Hcons. specialize (Hcons Hfit).
  assert (Hbefore : before
                    = sum_purgeable_pages PAGE_SHIFT (inactive_list dev))
    by (apply count_granted_fits; assumption).
  assert (Hrs : fst rs = acc (scan_loop PAGE_SHIFT (nr_to_scan sc)
                                (inactive_list dev) 0))
    by (apply scan_granted_fst; exact Hgranted).
  assert (Hafter : after
                   = sum_purgeable_pages PAGE_SHIFT
                       (objs (scan_loop PAGE_SHIFT (nr_to_scan sc)
                                (inactive_list dev) 0))).
  { subst after rs.
    rewrite count_granted_fits;
      rewrite ?scan_granted_list by exact Hgranted;
      [reflexivity|now apply granted_after_scan|lia]. }
  split; [lia|]. split; [lia|].
  intros Hbudget.
  destruct (N.le_gt_cases (nr_to_scan sc) (fst rs)) as [Hreached|Hshort].
  - lia.
  - rewrite Hrs in Hshort.
    destruct (scan_loop_short PAGE_SHIFT _ _ _ Hshort) as [_ Hnone].
    apply (sum_purgeable_pages_none PAGE_SHIFT) in Hnone. lia.
Qed.

Lemma msm_gem_shrinker_count_after_scan_witness :
  let dev := idle_device [purgeable_obj 12 4; purgeable_obj 12 2;
                          purgeable_obj 12 8] in
  let rs := msm_gem_shrinker_scan 12 0%nat {| nr_to_scan := 5 |} dev in
  granted 0%nat dev
  /\ sum_purgeable_pages 12 (inactive_list dev) < 2 ^ BITS_PER_LONG
  /\ fst rs
     + fst (msm_gem_shrinker_count 12 0%nat {| nr_to_scan := 0 |} (snd rs))
     = fst (msm_gem_shrinker_count 12 0%nat {| nr_to_scan := 0 |} dev).
Proof.
  intros dev rs.
  assert (Hg : granted 0%nat dev) by reflexivity.
  assert (Hfit : sum_purgeable_pages 12 (inactive_list dev)
                 < 2 ^ BITS_PER_LONG) by reflexivity.
  split; [exact Hg|]. split; [exact Hfit|].
  exact (proj1 (msm_gem_shrinker_count_after_scan 12 0%nat
                  {| nr_to_scan := 5 |} {| nr_to_scan := 0 |} dev Hg Hfit)).
Defined.

(** X7: while the purgeable pages of the inactive list fit an unsigned long,
    a scan with a larger budget on the same state frees at least as much. *)
Theorem msm_gem_shrinker_scan_monotone (PAGE_SHIFT : N) (cur : ctx)
  (sc1 sc2 : shrink_control) (dev : drm_device)
  (Hgranted : granted cur dev)
  (Hfit : sum_purgeable_pages PAGE_SHIFT (inactive_list dev)
          < 2 ^ BITS_PER_LONG)
  (Hle : nr_to_scan sc1 <= nr_to_scan sc2) :
  fst (msm_gem_shrinker_scan PAGE_SHIFT cur sc1 dev)
  <= fst (msm_gem_shrinker_scan PAGE_SHIFT cur sc2 dev).
Proof.
  rewrite !scan_granted_fst by exact Hgranted.
  apply scan_loop_mono; [exact Hle|]. now rewrite N.add_0_l.
Qed.

Lemma msm_gem_shrinker_scan_monotone_witness :
  let dev := idle_device [purgeable_obj 12 4; purgeable_obj 12 2;
                          purgeable_obj 12 8] in
  granted 0%nat dev
  /\ fst (msm_gem_shrinker_scan 12 0%nat {| nr_to_scan := 5 |} dev)
     <= fst (msm_gem_shrinker_scan 12 0%nat {| nr_to_scan := 7 |} dev).
Proof.
  intros dev.
  assert (Hg : granted 0%nat dev) by reflexivity.
  assert (Hfit : sum_purgeable_pages 12 (inactive_list dev)
                 < 2 ^ BITS_PER_LONG) by reflexivity.
  assert (Hle : nr_to_scan {| nr_to_scan := 5 |}
                <= nr_to_scan {| nr_to_scan := 7 |})
    by (intros H; discriminate H).
  split; [exact Hg|].
  exact (msm_gem_shrinker_scan_monotone 12 0%nat {| nr_to_scan := 5 |}
           {| nr_to_scan := 7 |} dev Hg Hfit Hle).
Defined.

Lemma Forall2_refl_or (P : msm_gem_object -> msm_gem_object -> Prop)
  (l : list msm_gem_object) :
  Forall2 (fun o o' => o' = o \/ P o o') l l.
Proof. induction l; constructor; auto. Qed.

(** X8: a pass never adds, drops or reorders entries of the inactive list:
    entry by entry, the list after a pass is the list before it, where the
    scan changes an entry only by purging it while it is purgeable and the
    unmap pass changes an entry only by unmapping it while it is unmappable.
    An object that is not purgeable is never purged and one that is not
    unmappable is never unmapped, whether the lock was granted or not. *)
Theorem passes_keep_list_shape (PAGE_SHIFT : N) (cur : ctx)
  (sc : shrink_control) (ptr : N) (dev : drm_device) :
  let ls := inactive_list (snd (msm_gem_shrinker_scan PAGE_SHIFT cur sc dev)) in
  let lv := inactive_list (snd (msm_gem_shrinker_vmap cur ptr dev)) in
  length ls = length (inactive_list dev)
  /\ length lv = length (inactive_list dev)
  /\ Forall2
       (fun o o' =>
          o' = o
          \/ (is_purgeable o = true
              /\ o' = msm_gem_purge o OBJ_LOCK_SHRINKER))
       (inactive_list dev) ls
  /\ Forall2
       (fun o o' =>
          o' = o
          \/ (is_vunmapable o = true
              /\ o' = msm_gem_vunmap o OBJ_LOCK_SHRINKER))
       (inactive_list dev) lv.
Proof.
  intros ls lv. subst ls lv.
  destruct (granted_or_held_elsewhere cur dev) as [Hg|He].
  - rewrite scan_granted_list by exact Hg.
    rewrite (vmap_granted cur ptr dev Hg). cbn [snd].
    rewrite inactive_list_trace_if.
    split; [apply scan_loop_length|].
    split; [apply vmap_loop_length|].
    split; [apply scan_loop_pointwise|apply vmap_loop_pointwise].
  - rewrite (scan_contended PAGE_SHIFT cur sc dev He).
    rewrite (vmap_contended cur ptr dev He). cbn [snd].
    split; [reflexivity|]. split; [reflexivity|].
    split.
    + apply (Forall2_refl_or
               (fun o o' => is_purgeable o = true
                            /\ o' = msm_gem_purge o OBJ_LOCK_SHRINKER)).
    + apply (Forall2_refl_or
               (fun o o' => is_vunmapable o = true
                            /\ o' = msm_gem_vunmap o OBJ_LOCK_SHRINKER)).
Qed.

(** X9: SHRINK_STOP is unambiguous.  While the purgeable pages of the
    inactive list stay below SHRINK_STOP, the scan returns SHRINK_STOP
    exactly when the lock is held by another context. *)
Theorem msm_gem_shrinker_scan_stop_iff (PAGE_SHIFT : N) (cur : ctx)
  (sc : shrink_control) (dev : drm_device)
  (Hfit : sum_purgeable_pages PAGE_SHIFT (inactive_list dev) < SHRINK_STOP) :
  fst (msm_gem_shrinker_scan PAGE_SHIFT cur sc dev) = SHRINK_STOP
  <-> held_elsewhere cur dev.
Proof.
  assert (Hstop : SHRINK_STOP < 2 ^ BITS_PER_LONG) by reflexivity.
  split.
  - intros Hret. destruct (granted_or_held_elsewhere cur dev) as [Hg|He];
      [exfalso|exact He].
    rewrite scan_granted_fst in Hret by exact Hg.
    pose proof (scan_loop_bounds PAGE_SHIFT (nr_to_scan sc)
                  (inactive_list dev) 0) as Hb.
    rewrite N.add_0_l in Hb. specialize (Hb ltac:(lia)). lia.
  - intros He. now rewrite (scan_contended PAGE_SHIFT cur sc dev He).
Qed.

Lemma msm_gem_shrinker_scan_stop_iff_witness :
  let dev := set_struct_mutex {| owner := Some 7%nat |}
               (idle_device [purgeable_obj 12 4]) in
  sum_purgeable_pages 12 (inactive_list dev) < SHRINK_STOP
  /\ (fst (msm_gem_shrinker_scan 12 3%nat {| nr_to_scan := 5 |} dev)
      = SHRINK_STOP
      <-> held_elsewhere 3%nat dev).
Proof.
  intros dev.
  assert (Hfit : sum_purgeable_pages 12 (inactive_list dev) < SHRINK_STOP)
    by reflexivity.
  split; [exact Hfit|].
  exact (msm_gem_shrinker_scan_stop_iff 12 3%nat {| nr_to_scan := 5 |} dev
           Hfit).
Defined.

(** ** Repeated unmap passes *)

Lemma vmap_pass_step (cur : ctx) (ptr : N) (dev : drm_device) :
  granted cur dev ->
  let n := count_vunmapable (inactive_list dev) in
  let r := msm_gem_shrinker_vmap cur ptr dev in
  granted cur (snd r)
  /\ count_vunmapable (inactive_list (snd r)) = n - N.min 15 n
  /\ snd (fst r) = ulong (ptr + N.min 15 n).
Proof.
  intros Hg n r. subst r. rewrite (vmap_granted cur ptr dev Hg). cbn [fst snd].
  rewrite inactive_list_trace_if.
  pose proof (vmap_loop_acc (inactive_list dev) 0 eq_refl) as Hacc.
  pose proof (vmap_loop_count (inactive_list dev) 0 eq_refl) as Hcount.
  rewrite N.add_0_l in Hacc, Hcount. fold n in Hacc, Hcount.
  split; [now apply granted_trace_if|].
  split; [lia|now rewrite Hacc].
Qed.

Lemma vmap_passes_count (cur : ctx) :
  forall (k : nat) (ptr : N) (dev : drm_device),
  granted cur dev ->
  let n := count_vunmapable (inactive_list dev) in
  let r := vmap_passes k cur ptr dev in
  count_vunmapable (inactive_list (snd r)) = n - N.min n (15 * N.of_nat k)
  /\ ulong (fst r) = ulong (ptr + N.min n (15 * N.of_nat k)).
Proof.
  induction k as [|k IH]; intros ptr dev Hg n r.
  - subst r. cbn [vmap_passes fst snd]. fold n.
    replace (N.min n (15 * N.of_nat 0)) with 0 by (cbn; lia).
    split; [lia|now rewrite N.add_0_r].
  - subst r. cbn [vmap_passes].
    destruct (vmap_pass_step cur ptr dev Hg) as (Hg1 & Hc1 & Hp1).
    fold n in Hc1, Hp1.
    destruct (IH (snd (fst (msm_gem_shrinker_vmap cur ptr dev)))
                (snd (msm_gem_shrinker_vmap cur ptr dev)) Hg1) as [Hc Hp].
    rewrite Hc, Hp, Hc1, Hp1, ulong_add_l.
    rewrite Nat2N.inj_succ. split; [lia|f_equal; lia].
Qed.

(** X10: the unmap pass makes progress until nothing is left.  Starting with
    the lock granted and [n] unmappable objects, after [k] passes in a row
    [n - min n (15 k)] unmappable objects are left, the accumulator has grown
    (modulo 2^64) by the [min n (15 k)] objects unmapped, and once [15 k]
    reaches [n] no object of the inactive list is unmappable. *)
Theorem msm_gem_shrinker_vmap_repeated (cur : ctx) (k : nat) (ptr : N)
  (dev : drm_device)
  (Hgranted : granted cur dev) :
  let n := count_vunmapable (inactive_list dev) in
  let r := vmap_passes k cur ptr dev in
  count_vunmapable (inactive_list (snd r)) = n - N.min n (15 * N.of_nat k)
  /\ ulong (fst r) = ulong (ptr + N.min n (15 * N.of_nat k))
  /\ (n <= 15 * N.of_nat k ->
      Forall (fun o => is_vunmapable o = false) (inactive_list (snd r))).
Proof.
  intros n r.
  destruct (vmap_passes_count cur k ptr dev Hgranted) as [Hc Hp].
  fold n r in Hc, Hp.
  split; [exact Hc|]. split; [exact Hp|].
  intros Hk. apply count_vunmapable_none. lia.
Qed.

Lemma msm_gem_shrinker_vmap_repeated_witness :
  let dev := idle_device (repeat mapped_obj 40) in
  let r := vmap_passes 3 0%nat 0 dev in
  granted 0%nat dev
  /\ ulong (fst r) = ulong (0 + N.min 40 45)
  /\ Forall (fun o => is_vunmapable o = false) (inactive_list (snd r)).
Proof.
  intros dev r.
  assert (Hg : granted 0%nat dev) by reflexivity.
  split; [exact Hg|].
  destruct (msm_gem_shrinker_vmap_repeated 0%nat 3 0 dev Hg)
    as (_ & Hp & Hnone).
  split; [exact Hp|]. apply Hnone. intros H. discriminate H.
Defined.

(** ** Registration and cleanup in sequence *)

(** X11: init registers all or nothing.  When the allocation fails it
    returns -ENOMEM with a null shrinker handle, calls nothing and leaves the
    notifier as it was.  When it succeeds it returns 0, the shrinker carries
    the count and scan callbacks and the private data, the notifier carries
    the vmap callback and is registered, the shrinker is registered before
    the notifier, no warning is raised, and the lock and the inactive list
    are as before. *)
Theorem msm_gem_shrinker_init_all_or_nothing (alloc : option shrinker_t)
  (dev : drm_device) :
  let r := msm_gem_shrinker_init alloc dev in
  (alloc = None ->
   fst r = (- ENOMEM)%Z
   /\ shrinker (snd r) = None
   /\ events (snd r) = events dev
   /\ vmap_notifier (snd r) = vmap_notifier dev
   /\ vmap_notifier_registered (snd r) = vmap_notifier_registered dev)
  /\ (alloc <> None ->
      fst r = 0%Z
      /\ shrinker (snd r)
         = Some {| count_objects := Some cb_msm_gem_shrinker_count;
                   scan_objects := Some cb_msm_gem_shrinker_scan;
                   private_data := true |}
      /\ vmap_notifier (snd r) = Some cb_msm_gem_shrinker_vmap
      /\ vmap_notifier_registered (snd r) = true
      /\ events (snd r)
         = events dev ++ [ev_shrinker_register;
                          ev_register_vmap_purge_notifier])
  /\ struct_mutex (snd r) = struct_mutex dev
  /\ inactive_list (snd r) = inactive_list dev.
Proof.
  intros r. subst r. destruct alloc as [s|].
  - split; [intros H; discriminate H|].
    split; [|split; reflexivity].
    intros _. cbn. rewrite <- app_assoc. repeat split.
  - split; [|split; [intros H; now elim H|split; reflexivity]].
    intros _. repeat split.
Qed.

Lemma msm_gem_shrinker_init_all_or_nothing_witness :
  let r := msm_gem_shrinker_init None (idle_device [mapped_obj]) in
  fst r = (- ENOMEM)%Z
  /\ shrinker (snd r) = None
  /\ events (snd r) = [].
Proof.
  intros r.
  destruct (proj1 (msm_gem_shrinker_init_all_or_nothing None
                     (idle_device [mapped_obj])) eq_refl)
    as (Hret & Hnull & Hev & _).
  split; [exact Hret|]. split; [exact Hnull|exact Hev].
Defined.

(** X12: cleanup undoes a successful init once.  After init with a
    successful allocation, cleanup unregisters the notifier and then frees
    the shrinker, without a warning, and the notifier is no longer
    registered.  The shrinker handle is not cleared, so a second cleanup goes
    through both calls again: it unregisters a notifier that is not
    registered, which raises the warning, and frees the shrinker a second
    time. *)
Theorem msm_gem_shrinker_init_cleanup (s : shrinker_t) (dev : drm_device) :
  let d1 := snd (msm_gem_shrinker_init (Some s) dev) in
  let d2 := snd (msm_gem_shrinker_cleanup d1) in
  let d3 := snd (msm_gem_shrinker_cleanup d2) in
  events d2
  = events dev ++ [ev_shrinker_register; ev_register_vmap_purge_notifier;
                   ev_unregister_vmap_purge_notifier; ev_shrinker_free]
  /\ vmap_notifier_registered d2 = false
  /\ shrinker d2 = shrinker d1
  /\ events d3
     = events d2 ++ [ev_unregister_vmap_purge_notifier; ev_WARN;
                     ev_shrinker_free].
Proof.
  intros d1 d2 d3. subst d1 d2 d3. cbn.
  rewrite <- !app_assoc. repeat split.
Qed.

(** ** The guard and its release *)

(** X13: the guard and the conditional release bracket a pass.  Whenever the
    guard grants access the lock is owned by the calling context right after
    it, and releasing according to the flag the guard wrote puts the lock
    back into the state it had before the guard ran; when the guard refuses,
    the device is untouched.  So a pass never leaves with a lock it took and
    never releases a lock it did not take. *)
Theorem msm_gem_shrinker_lock_bracket (cur : ctx) (dev : drm_device) :
  let r := msm_gem_shrinker_lock cur dev in
  (fst (fst r) = true -> owner (struct_mutex (snd r)) = Some cur)
  /\ (fst (fst r) = false -> snd r = dev)
  /\ snd (unlock_if (snd (fst r)) (snd r)) = dev.
Proof.
  intros r. subst r.
  destruct (lock_cases cur dev) as [H|[H|(t & H & Hneq)]].
  - rewrite (lock_free cur dev H). cbn [fst snd].
    split; [reflexivity|]. split; [intros Hf; discriminate Hf|].
    destruct dev as [[o] l s vn vr ev]; cbn in *; subst; reflexivity.
  - rewrite (lock_recursive cur dev H). cbn [fst snd].
    split; [intros _; exact H|]. split; reflexivity.
  - rewrite (lock_contended cur t dev H Hneq). cbn [fst snd].
    split; [intros Hf; discriminate Hf|]. split; reflexivity.
Qed.

Lemma msm_gem_shrinker_lock_bracket_witness :
  let r := msm_gem_shrinker_lock 7%nat (idle_device [mapped_obj]) in
  fst (fst r) = true
  /\ owner (struct_mutex (snd r)) = Some 7%nat.
Proof.
  intros r.
  assert (Hok : fst (fst r) = true) by reflexivity.
  split; [exact Hok|].
  exact (proj1 (msm_gem_shrinker_lock_bracket 7%nat
                  (idle_device [mapped_obj])) Hok).
Defined.

(** ** Where a walk stops *)

Section WalkStops.

Variable PAGE_SHIFT : N.
Variable nr : N.

Local Abbreviation scan := (scan_loop PAGE_SHIFT nr).
Local Abbreviation step := (scan_step PAGE_SHIFT).

(** The total of the scan is the running total over the visited objects. *)
Lemma scan_loop_acc_fold :
  forall (l : list msm_gem_object) (freed : N),
  acc (scan l freed)
  = fold_left step (firstn (visited (scan l freed)) l) freed.
Proof.
  induction l as [|o tl IH]; intros freed; [reflexivity|].
  cbn [scan_loop]. destruct (nr <=? freed); [reflexivity|].
  destruct (is_purgeable o) eqn:Ho;
    cbn [walk_cons acc visited firstn fold_left];
    unfold scan_step at 2; rewrite Ho; apply IH.
Qed.

(** Every visited object was reached with the running total below the
    budget. *)
Lemma scan_loop_visited_below :
  forall (l : list msm_gem_object) (freed : N) (i : nat),
  (i < visited (scan l freed))%nat ->
  fold_left step (firstn i l) freed < nr.
Proof.
  induction l as [|o tl IH]; intros freed i Hi; [cbn in Hi; lia|].
  cbn [scan_loop] in Hi. destruct (nr <=? freed) eqn:Hb; [cbn in Hi; lia|].
  apply N.leb_gt in Hb. destruct i as [|i]; [exact Hb|].
  cbn [firstn fold_left]. unfold scan_step at 2.
  destruct (is_purgeable o); cbn [walk_cons visited] in Hi; apply IH; lia.
Qed.

(** Without wrap-around the scan visits at most budget-many objects beside
    the visited ones that add nothing to the total. *)
Lemma scan_loop_work_prefix :
  forall (l : list msm_gem_object) (freed : N),
  freed + sum_purgeable_pages PAGE_SHIFT l < 2 ^ BITS_PER_LONG ->
  (visited (scan l freed)
   <= N.to_nat (nr - freed)
      + length (scan_dead PAGE_SHIFT (firstn (visited (scan l freed)) l)))%nat.
Proof.
  induction l as [|o tl IH]; intros freed Hfit; [cbn; lia|].
  rewrite sum_purgeable_pages_cons in Hfit.
  unfold scan_dead in *. cbn [scan_loop].
  destruct (nr <=? freed) eqn:Hb; [cbn; lia|]. apply N.leb_gt in Hb.
  destruct (is_purgeable o) eqn:Ho;
    cbn [walk_cons visited firstn filter]; rewrite Ho; cbn [negb orb].
  - assert (Hs : ulong (freed + obj_pages PAGE_SHIFT o)
                 = freed + obj_pages PAGE_SHIFT o)
      by (apply ulong_small; lia).
    rewrite Hs. specialize (IH (freed + obj_pages PAGE_SHIFT o)).
    destruct (obj_pages PAGE_SHIFT o =? 0) eqn:Hz.
    + apply N.eqb_eq in Hz. rewrite Hz in *. rewrite N.add_0_r in *.
      cbn [length]. specialize (IH ltac:(lia)). lia.
    + apply N.eqb_neq in Hz. specialize (IH ltac:(lia)). lia.
  - cbn [length]. specialize (IH freed ltac:(lia)). lia.
Qed.

End WalkStops.

Lemma vmap_loop_prefix :
  forall (l : list msm_gem_object) (u : N),
  objs (vmap_loop l u)
  = map vunmap_if_vunmapable (firstn (visited (vmap_loop l u)) l)
    ++ skipn (visited (vmap_loop l u)) l.
Proof.
  induction l as [|o tl IH]; intros u; [reflexivity|].
  cbn [vmap_loop]. destruct (is_vunmapable o) eqn:Ho.
  - destruct (15 <=? uint (u + 1));
      cbn [walk_cons objs visited firstn skipn map app];
      unfold vunmap_if_vunmapable at 1; rewrite Ho; f_equal; apply IH.
  - cbn [walk_cons objs visited firstn skipn map app].
    unfold vunmap_if_vunmapable at 1. rewrite Ho. f_equal. apply IH.
Qed.

(** The counter of the unmap pass counts the unmappable objects it
    visited. *)
Lemma vmap_loop_acc_prefix :
  forall (l : list msm_gem_object) (u : N),
  u < 15 ->
  acc (vmap_loop l u)
  = u + count_vunmapable (firstn (visited (vmap_loop l u)) l).
Proof.
  induction l as [|o tl IH]; intros u Hu; [cbn; lia|].
  cbn [vmap_loop]. destruct (is_vunmapable o) eqn:Ho.
  - rewrite (uint_succ_small u Hu). destruct (15 <=? u + 1) eqn:Hb.
    + cbn [acc visited firstn count_vunmapable]. rewrite Ho. lia.
    + apply N.leb_gt in Hb.
      cbn [walk_cons acc visited firstn count_vunmapable].
      rewrite Ho, IH by exact Hb. lia.
  - cbn [walk_cons acc visited firstn count_vunmapable].
    rewrite Ho, IH by exact Hu. lia.
Qed.

(** Every visited object was reached with fewer than 15 objects unmapped. *)
Lemma vmap_loop_visited_below :
  forall (l : list msm_gem_object) (u : N) (i : nat),
  u < 15 ->
  (i < visited (vmap_loop l u))%nat ->
  u + count_vunmapable (firstn i l) < 15.
Proof.
  induction l as [|o tl IH]; intros u i Hu Hi; [cbn in Hi; lia|].
  destruct i as [|i]; [cbn; lia|].
  cbn [vmap_loop] in Hi. cbn [firstn count_vunmapable].
  destruct (is_vunmapable o).
  - rewrite (uint_succ_small u Hu) in Hi.
    destruct (15 <=? u + 1) eqn:Hb; [cbn in Hi; lia|].
    apply N.leb_gt in Hb. cbn [walk_cons visited] in Hi.
    specialize (IH (u + 1) i Hb ltac:(lia)). lia.
  - cbn [walk_cons visited] in Hi. specialize (IH u i Hu ltac:(lia)). lia.
Qed.

(** The visited objects are those unmapped and those that cannot be
    unmapped. *)
Lemma vmap_loop_visited_split :
  forall (l : list msm_gem_object) (u : N),
  u < 15 ->
  visited (vmap_loop l u)
  = (N.to_nat (acc (vmap_loop l u) - u)
     + length (vmap_dead (firstn (visited (vmap_loop l u)) l)))%nat.
Proof.
  induction l as [|o tl IH]; intros u Hu; [cbn; lia|].
  unfold vmap_dead in *. cbn [vmap_loop].
  destruct (is_vunmapable o) eqn:Ho.
  - rewrite (uint_succ_small u Hu). destruct (15 <=? u + 1) eqn:Hb.
    + cbn [acc visited firstn filter]. rewrite Ho. cbn [negb length]. lia.
    + apply N.leb_gt in Hb. cbn [walk_cons acc visited firstn filter].
      rewrite Ho. cbn [negb].
      pose proof (vmap_loop_acc_prefix tl (u + 1) Hb) as Hacc.
      specialize (IH (u + 1) Hb). lia.
  - cbn [walk_cons acc visited firstn filter]. rewrite Ho. cbn [negb length].
    pose proof (vmap_loop_acc_prefix tl u Hu) as Hacc.
    specialize (IH u Hu). lia.
Qed.

(** C9, amended: a pass visits the objects of the inactive list in order,
    each at most once, and what it visits is a prefix of the list: the list
    afterwards is that prefix, purged or unmapped where eligible, followed by
    the rest as it was.  The scan visits an object only while its running
    total is below the budget, so it visits no object after the total has
    reached the budget, and it ends before the end of the list only when the
    total has reached the budget; while the purgeable pages fit an unsigned
    long it visits at most budget-many objects beside the visited ones that
    add nothing to the total.  The unmap pass visits an object only while it
    has unmapped fewer than 15, never unmaps more than 15, ends before the
    end of the list only at its 15th unmap, and the objects it visits are the
    ones it unmaps and the visited ones it cannot unmap.  The loops are what
    the entry points run once the lock is granted. *)
Theorem passes_work_bounded (PAGE_SHIFT : N) (cur : ctx)
  (sc : shrink_control) (ptr : N) (dev : drm_device)
  (Hgranted : granted cur dev) :
  let l := inactive_list dev in
  let ws := scan_loop PAGE_SHIFT (nr_to_scan sc) l 0 in
  let wv := vmap_loop l 0 in
  (fst (msm_gem_shrinker_scan PAGE_SHIFT cur sc dev) = acc ws
   /\ inactive_list (snd (msm_gem_shrinker_scan PAGE_SHIFT cur sc dev))
      = objs ws
   /\ fst (msm_gem_shrinker_vmap cur ptr dev)
      = (NOTIFY_DONE, ulong (ptr + acc wv))
   /\ inactive_list (snd (msm_gem_shrinker_vmap cur ptr dev)) = objs wv)
  /\ (visited ws <= length l)%nat
  /\ objs ws
     = map purge_if_purgeable (firstn (visited ws) l) ++ skipn (visited ws) l
  /\ acc ws = freed_after PAGE_SHIFT (firstn (visited ws) l)
  /\ (forall i : nat,
      (i < visited ws)%nat ->
      freed_after PAGE_SHIFT (firstn i l) < nr_to_scan sc)
  /\ ((visited ws < length l)%nat -> nr_to_scan sc <= acc ws)
  /\ (sum_purgeable_pages PAGE_SHIFT l < 2 ^ BITS_PER_LONG ->
      (visited ws
       <= N.to_nat (nr_to_scan sc)
          + length (scan_dead PAGE_SHIFT (firstn (visited ws) l)))%nat)
  /\ (visited wv <= length l)%nat
  /\ objs wv
     = map vunmap_if_vunmapable (firstn (visited wv) l)
       ++ skipn (visited wv) l
  /\ acc wv = count_vunmapable (firstn (visited wv) l)
  /\ acc wv <= 15
  /\ (forall i : nat,
      (i < visited wv)%nat -> count_vunmapable (firstn i l) < 15)
  /\ ((visited wv < length l)%nat -> acc wv = 15)
  /\ visited wv
     = (N.to_nat (acc wv) + length (vmap_dead (firstn (visited wv) l)))%nat.
Proof.
  intros l ws wv. split.
  { rewrite scan_granted_fst, scan_granted_list by exact Hgranted.
    rewrite (vmap_granted cur ptr dev Hgranted). cbn [fst snd].
    rewrite inactive_list_trace_if. repeat split. }
  split; [apply scan_loop_visited_le|].
  split; [apply scan_loop_prefix|].
  split; [apply scan_loop_acc_fold|].
  split; [intros i Hi; now apply (scan_loop_visited_below PAGE_SHIFT _ l 0 i)|].
  split; [apply scan_loop_early|].
  split.
  { intros Hfit. subst ws.
    pose proof (scan_loop_work_prefix PAGE_SHIFT (nr_to_scan sc) l 0) as Hw.
    rewrite N.add_0_l, N.sub_0_r in Hw. exact (Hw Hfit). }
  split; [apply vmap_loop_visited_le|].
  split; [apply vmap_loop_prefix|].
  split.
  { subst wv. rewrite vmap_loop_acc_prefix by reflexivity. apply N.add_0_l. }
  split.
  { subst wv. rewrite vmap_loop_acc by reflexivity. lia. }
  split.
  { intros i Hi.
    pose proof (vmap_loop_visited_below l 0 i eq_refl Hi) as Hlt.
    now rewrite N.add_0_l in Hlt. }
  split; [apply vmap_loop_early; reflexivity|].
  subst wv. pose proof (vmap_loop_visited_split l 0 eq_refl) as Hv.
  rewrite N.sub_0_r in Hv. exact Hv.
Qed.

Lemma passes_work_bounded_witness :
  let dev := idle_device [purgeable_obj 12 4; busy_obj; mapped_obj] in
  let l := inactive_list dev in
  let ws := scan_loop 12 3 l 0 in
  let wv := vmap_loop l 0 in
  granted 0%nat dev
  /\ (visited ws <= length l)%nat
  /\ (forall i : nat,
      (i < visited ws)%nat -> freed_after 12 (firstn i l) < 3)
  /\ (visited wv <= length l)%nat
  /\ acc wv <= 15
  /\ (forall i : nat,
      (i < visited wv)%nat -> count_vunmapable (firstn i l) < 15).
Proof.
  intros dev l ws wv.
  assert (Hg : granted 0%nat dev) by reflexivity.
  split; [exact Hg|].
  destruct (passes_work_bounded 12 0%nat {| nr_to_scan := 3 |} 0 dev Hg)
    as (_ & Hs & _ & _ & Hsb & _ & _ & Hv & _ & _ & Hcap & Hvb & _).
  split; [exact Hs|]. split; [exact Hsb|].
  split; [exact Hv|]. split; [exact Hcap|exact Hvb].
Defined.
